(** * barman/cli.py: command dispatch and target resolution

    A shallow embedding of the command layer of Barman (src/barman/cli.py)
    and the properties of its target resolution, backup-id resolution,
    tablespace-rule parsing and cron locking.

    Commands talk to three collaborators that live outside cli.py: the
    loaded configuration (barman.config), the output channel
    (barman.output) and the Server objects (barman.server).  The output
    channel and the effectful Server calls are recorded as a trace of
    events; the read-only Server queries are a record of functions. *)

From Stdlib Require Import Ascii String.
From stdpp Require Import gmap strings list sorting.

Local Open Scope string_scope.
Local Open Scope list_scope.

(** ** Data model *)

(** The fields of a server's configuration object that cli.py reads or
    assigns. *)
Record ServerConfig := {
  name : string;
  active : bool;
  disabled : bool;
  msg_list : list string;
  basebackup_retry_times : option Z;
  basebackup_retry_sleep : option Z;
}.

(** [Server(conf)]: the object wrapping a configuration. *)
Record Server := { config : ServerConfig }.

Record Tablespace := { ts_name : string; ts_location : string }.

(** [barman.infofile.BackupInfo]: the attributes of a backup record that
    cli.py reads.  [tablespaces] may be [None]. *)
Module BackupInfo.
Inductive Status := EMPTY | STARTED | FAILED | DONE.

Record t := {
  backup_id : string;
  status : Status;
  tablespaces : option (list Tablespace);
}.

#[global] Instance Status_eq_dec : EqDecision Status.
Proof. solve_decision. Defined.
End BackupInfo.

(** [barman.__config__], as far as cli.py consults it. *)
Module barman_config.
Record Config := {
  servers : list ServerConfig;
  get_server : string → option ServerConfig;
  servers_msg_list : list string;
  barman_lock_directory : string;
}.
End barman_config.

(** The read-only queries of the Server collaborator used by
    [parse_backup_id].  [get_backup] receives whatever the two alias
    queries return, [None] included. *)
Record Backend := {
  get_last_backup : Server → option string;
  get_first_backup : Server → option string;
  get_backup : Server → option string → option BackupInfo.t;
}.

(** The keyword arguments handed to [server.recover]. *)
Record RecoverCall := {
  rc_server : Server;
  rc_backup : BackupInfo.t;
  rc_dest : string;
  rc_tablespaces : gmap string string;
  rc_target_tli : option Z;
  rc_target_time : option string;
  rc_target_xid : option string;
  rc_target_name : option string;
  rc_exclusive : bool;
  rc_remote_command : option string;
}.

(** What a command does to the outside world, in order. *)
Inductive event :=
  | EInfo (msg : string)
  | EWarning (msg : string)
  | EError (msg : string)
  | ECron (s : Server)
  | ERecover (call : RecoverCall).

Inductive pyexn := IndexError | KeyError | AttributeError.

(** How a piece of code ends: it returns a value, the process exits
    through [output.close_and_exit] (SystemExit), or an exception that
    cli.py does not catch escapes. *)
Inductive outcome (A : Type) :=
  | Done (a : A)
  | Exited
  | Raised (e : pyexn).
Arguments Done {A} a.
Arguments Exited {A}.
Arguments Raised {A} e.

(** A command: the events it emitted and how it ended. *)
Definition cmd (A : Type) : Type := list event * outcome A.

#[global] Instance cmd_ret : MRet cmd := λ A a, ([], Done a).
#[global] Instance cmd_bind : MBind cmd := λ A B f m,
  match m with
  | (tr, Done a) => let '(tr', r) := f a in (tr ++ tr', r)
  | (tr, Exited) => (tr, Exited)
  | (tr, Raised e) => (tr, Raised e)
  end.

Definition trace {A} (m : cmd A) : list event := m.1.
Definition result {A} (m : cmd A) : outcome A := m.2.

Definition emit (e : event) : cmd unit := ([e], Done tt).
Definition pass : cmd unit := mret tt.
Definition raise {A} (e : pyexn) : cmd A := ([], Raised e).

(** [for x in l: body x] *)
Fixpoint for_each {A} (body : A → cmd unit) (l : list A) : cmd unit :=
  match l with
  | [] => mret tt
  | x :: l' => body x ;; for_each body l'
  end.

(** [for x in l: acc = body acc x], for loops that build up a value. *)
Fixpoint for_fold {A S} (body : S → A → cmd S) (acc : S) (l : list A) : cmd S :=
  match l with
  | [] => mret acc
  | x :: l' => acc' ← body acc x; for_fold body acc' l'
  end.

(** ** The output channel *)

Module output.
Definition info (msg : string) : cmd unit := emit (EInfo msg).
Definition warning (msg : string) : cmd unit := emit (EWarning msg).
Definition error (msg : string) : cmd unit := emit (EError msg).

(** Modelled from the spec: barman/output.py is not part of the sources.
    Its close-and-exit operation is terminal: it flushes and terminates
    the process, so nothing after it runs. *)
Definition close_and_exit {A} : cmd A := ([], Exited).

Definition is_error (e : event) : bool :=
  match e with EError _ => true | _ => false end.

(** Modelled from the spec: the exit status accumulated by the output
    channel (barman/output.py, not part of the sources) is non-zero once
    a message of level error has been reported. *)
Definition error_occurred (tr : list event) : bool := existsb is_error tr.
Definition exit_status (tr : list event) : Z :=
  if error_occurred tr then 1%Z else 0%Z.
End output.

(** ** String helpers standing for Python's built-ins *)

Definition colon : ascii := ":"%char.

(** [c in s] for a one-character [c]. *)
Fixpoint str_contains (c : ascii) (s : string) : bool :=
  match s with
  | EmptyString => false
  | String a s' => if Ascii.eqb a c then true else str_contains c s'
  end.

(** [s.partition(c)] when [c] occurs in [s]: the text before and after its
    first occurrence. *)
Fixpoint str_partition (c : ascii) (s : string) : option (string * string) :=
  match s with
  | EmptyString => None
  | String a s' =>
      if Ascii.eqb a c then Some (EmptyString, s')
      else match str_partition c s' with
           | Some (h, t) => Some (String a h, t)
           | None => None
           end
  end.

(** [s.split(c, 1)] *)
Definition str_split1 (c : ascii) (s : string) : list string :=
  match str_partition c s with
  | Some (h, t) => [h; t]
  | None => [s]
  end.

(** [', '.join(l)] *)
Fixpoint str_join (sep : string) (l : list string) : string :=
  match l with
  | [] => ""
  | [x] => x
  | x :: l' => x +:+ sep +:+ str_join sep l'
  end.

(** [sorted(d)] on a dict with string keys: the keys in ascending order. *)
Definition str_le (a b : string) : Prop := String.leb a b.
#[global] Instance str_le_dec a b : Decision (str_le a b).
Proof. unfold str_le. apply _. Defined.

Definition sorted_keys {V} (d : gmap string V) : list string :=
  merge_sort str_le (elements (dom d)).

(** [d.update(seq)] with [seq] a sequence of sequences: every element must
    have length 2, otherwise ValueError. *)
Definition dict_update (d : gmap string string) (seq : list (list string))
  : option (gmap string string) :=
  foldl (λ acc kv,
           d' ← acc;
           match kv with
           | [k; v] => Some (<[k := v]> d')
           | _ => None
           end) (Some d) seq.

(** ** Target classification *)

Definition server_error_output (server : Server) (is_error check_active : bool)
  : cmd unit :=
  check_active ←
    ((if disabled (config server) then
       (if is_error then
          for_each output.error (msg_list (config server)) ;;
          output.close_and_exit
        else
          for_each output.warning (msg_list (config server))) ;;
       mret false
     else mret check_active) : cmd bool);
  if (check_active : bool) then
    if negb (active (config server)) then
      if is_error then
        output.error ("Not active server: " +:+ name (config server)) ;;
        output.close_and_exit
      else
        output.warning ("Not active server: " +:+ name (config server))
    else pass
  else pass.

Definition is_unknown_server (server : option Server) (nm : string) : cmd bool :=
  match server with
  | None => output.error ("Unknown server '" +:+ nm +:+ "'") ;; mret true
  | Some _ => mret false
  end.

(** ** Target-set resolution *)

Section Resolution.
Variable cfg : barman_config.Config.

(** The loop of the 'all' branch of [get_server_list]. *)
Definition all_servers_step (skip_inactive skip_disabled : bool)
    (server_dict : gmap string (option Server)) (conf : ServerConfig)
  : cmd (gmap string (option Server)) :=
  if skip_inactive && negb (active conf) then
    output.info ("Skipping inactive server '" +:+ name conf +:+ "'") ;;
    mret server_dict
  else if skip_disabled && disabled conf then
    output.info ("Skipping temporarily disabled server '" +:+ name conf +:+ "'") ;;
    mret server_dict
  else
    mret (<[name conf := Some {| config := conf |}]> server_dict).

(** The loop of the explicit-list branch. *)
Definition named_servers_step
    (server_dict : gmap string (option Server)) (server : string)
  : cmd (gmap string (option Server)) :=
  match barman_config.get_server cfg server with
  | None => mret (<[server := None]> server_dict)
  | Some conf => mret (<[server := Some {| config := conf |}]> server_dict)
  end.

(** [args] is [None] when the command takes no server argument, otherwise
    the list [args.server_name]. *)
Definition get_server_list (args : option (list string))
    (skip_inactive skip_disabled on_error_stop suppress_error : bool)
  : cmd (gmap string (option Server)) :=
  let server_dict : gmap string (option Server) := ∅ in
  let barman_config_servers := barman_config.servers cfg in
  let global_error_list := barman_config.servers_msg_list cfg in
  (if bool_decide (global_error_list ≠ []) then
     (if negb suppress_error then
        for_each output.error global_error_list
      else pass) ;;
     (if on_error_stop then output.close_and_exit else pass)
   else pass) ;;
  match args with
  | None =>
      for_fold (all_servers_step skip_inactive skip_disabled)
               server_dict barman_config_servers
  | Some [] => raise IndexError
  | Some ((first :: _) as server_name) =>
      if String.eqb first "all" then
        for_fold (all_servers_step skip_inactive skip_disabled)
                 server_dict barman_config_servers
      else
        for_fold named_servers_step server_dict server_name
  end.

(** [get_server(args, dangerous)] for a command with a single
    [server_name]. *)
Definition get_server (server_name : string) (dangerous : bool)
  : cmd (option Server) :=
  let conf := barman_config.get_server cfg server_name in
  let global_error_list := barman_config.servers_msg_list cfg in
  if bool_decide (global_error_list ≠ []) then
    for_each output.error global_error_list ;;
    output.close_and_exit
  else
    match conf with
    | None => mret None
    | Some conf =>
        let server := {| config := conf |} in
        server_error_output server dangerous true ;;
        mret (Some server)
    end.
End Resolution.

(** ** Backup identifier resolution *)

Definition parse_backup_id (B : Backend) (server : Server) (backup_id : string)
  : option BackupInfo.t :=
  let backup_id :=
    if String.eqb backup_id "latest" || String.eqb backup_id "last" then
      get_last_backup B server
    else if String.eqb backup_id "oldest" || String.eqb backup_id "first" then
      get_first_backup B server
    else Some backup_id in
  get_backup B server backup_id.

(** ** Tablespace relocation rules *)

Definition nl : string := String "010"%char EmptyString.

Definition invalid_rule_msg (rule : string) : string :=
  "Invalid tablespace relocation rule '" +:+ rule +:+ "'" +:+ nl +:+
  "HINT: The valid syntax for a relocation rule is NAME:LOCATION".

(** The body of the decoding loop of [recover]:
    [tablespaces.update([rule.split(':', 1)])] guarded by
    [except ValueError]. *)
Definition decode_rule (tablespaces : gmap string string) (rule : string)
  : cmd (gmap string string) :=
  match dict_update tablespaces [str_split1 colon rule] with
  | Some tablespaces' => mret tablespaces'
  | None => output.error (invalid_rule_msg rule) ;; output.close_and_exit
  end.

(** [args.tablespace] is [None] when no --tablespace option was given. *)
Definition decode_tablespaces (tablespace : option (list string))
  : cmd (gmap string string) :=
  match tablespace with
  | Some rules => for_fold decode_rule ∅ rules
  | None => mret ∅
  end.

Definition invalid_name_msg (item : string) (valid_tablespaces : list string)
  : string :=
  "Invalid tablespace name '" +:+ item +:+ "'" +:+ nl +:+
  "HINT: Please use any of the following tablespaces: " +:+
  str_join ", " valid_tablespaces.

(** ** The recover command *)

Record RecoverArgs := {
  server_name : string;
  backup_id : string;
  destination_directory : string;
  tablespace : option (list string);
  target_tli : option Z;
  target_time : option string;
  target_xid : option string;
  target_name : option string;
  exclusive : bool;
  remote_ssh_command : option string;
  retry_times : option Z;
  retry_sleep : option Z;
}.

Definition unknown_backup_msg (backup_id server_name : string) : string :=
  "Unknown backup '" +:+ backup_id +:+ "' for server '" +:+ server_name +:+ "'".

Definition destination_colon_msg : string :=
  "The destination directory parameter cannot contain the ':' character" +:+
  nl +:+
  "HINT: If you want to do a remote recovery you have to use " +:+
  "the --remote-ssh-command option".

Definition set_retry_sleep (v : option Z) (c : ServerConfig) : ServerConfig :=
  match v with
  | Some _ =>
      {| name := name c; active := active c; disabled := disabled c;
         msg_list := msg_list c;
         basebackup_retry_times := basebackup_retry_times c;
         basebackup_retry_sleep := v |}
  | None => c
  end.

Definition set_retry_times (v : option Z) (c : ServerConfig) : ServerConfig :=
  match v with
  | Some _ =>
      {| name := name c; active := active c; disabled := disabled c;
         msg_list := msg_list c;
         basebackup_retry_times := v;
         basebackup_retry_sleep := basebackup_retry_sleep c |}
  | None => c
  end.

Section Commands.
Variable cfg : barman_config.Config.
Variable B : Backend.

(** The order in which [for item in tablespaces] visits the keys of the
    dict.  Python 2 leaves it unspecified, so it is a parameter here. *)
Variable dict_keys : gmap string string → list string.

Definition recover (args : RecoverArgs) : cmd unit :=
  server ← get_server cfg (server_name args) true;
  unknown ← is_unknown_server server (server_name args);
  (if (unknown : bool) then output.close_and_exit else pass) ;;
  match server with
  | None => raise AttributeError
  | Some server =>
  (* Retrieves the backup *)
  let backup := parse_backup_id B server (backup_id args) in
  (if match backup with
      | None => true
      | Some b => bool_decide (BackupInfo.status b ≠ BackupInfo.DONE)
      end
   then
     output.error (unknown_backup_msg (backup_id args) (server_name args)) ;;
     output.close_and_exit
   else pass) ;;
  (* decode the tablespace relocation rules *)
  tablespaces ← decode_tablespaces (tablespace args);
  let tablespaces : gmap string string := tablespaces in
  match backup with
  | None => raise AttributeError
  | Some backup =>
  (* validate the rules against the tablespace list *)
  let valid_tablespaces :=
    match BackupInfo.tablespaces backup with
    | Some ((_ :: _) as l) => ts_name <$> l
    | _ => []
    end in
  for_each (λ item,
              if bool_decide (item ∈ valid_tablespaces) then pass
              else
                output.error (invalid_name_msg item valid_tablespaces) ;;
                output.close_and_exit)
           (dict_keys tablespaces) ;;
  (* explicitly disallow the rsync remote syntax (common mistake) *)
  (if str_contains colon (destination_directory args) then
     output.error destination_colon_msg ;;
     output.close_and_exit
   else pass) ;;
  let server :=
    {| config := set_retry_times (retry_times args)
                   (set_retry_sleep (retry_sleep args) (config server)) |} in
  emit (ERecover {| rc_server := server;
                    rc_backup := backup;
                    rc_dest := destination_directory args;
                    rc_tablespaces := tablespaces;
                    rc_target_tli := target_tli args;
                    rc_target_time := target_time args;
                    rc_target_xid := target_xid args;
                    rc_target_name := target_name args;
                    rc_exclusive := exclusive args;
                    rc_remote_command := remote_ssh_command args |}) ;;
  output.close_and_exit
  end
  end.

(** Modelled from the spec: barman/lockfile.py is not part of the sources.
    Entering [GlobalCronLock] has three outcomes: the lock is acquired,
    it is busy (LockFileBusy), or the lock directory cannot be accessed
    (LockFilePermissionDenied, whose text is the path). *)
Inductive lock_outcome :=
  | LockAcquired
  | LockFileBusy
  | LockFilePermissionDenied (e : string).

Definition cron (lock : lock_outcome) : cmd unit :=
  match lock with
  | LockAcquired =>
      servers ← get_server_list cfg None true false true false;
      for_each (λ server,
                  match (servers : gmap string (option Server)) !! server with
                  | Some (Some s) =>
                      server_error_output s true true ;;
                      emit (ECron s)
                  | Some None => raise AttributeError
                  | None => raise KeyError
                  end)
               (sorted_keys servers)
  | LockFileBusy => output.info "Another cron is running"
  | LockFilePermissionDenied e =>
      output.error ("Permission denied, unable to access '" +:+ e +:+ "'")
  end ;;
  output.close_and_exit.
End Commands.

(** ** The other commands

    The remaining commands also initialise the output of a command
    ([output.init]) and call other methods of the Server objects and of
    [barman.diagnose].  Their trace extends the one above: [XCore] wraps
    an event of the resolution layer, the other constructors record the
    further calls. *)

Inductive server_op :=
  | op_list_backups
  | op_status
  | op_rebuild_xlogdb
  | op_show
  | op_check.

Inductive backup_op := op_show_backup | op_delete_backup.

Inductive xevent :=
  | XCore (e : event)
  | XInit (command name : string) (minimal : option bool)
  | XNagiosWriter
  | XServer (op : server_op) (s : Server)
  | XBackup (op : backup_op) (s : Server) (b : BackupInfo.t)
  | XDiagnose (servers : gmap string (option Server))
              (errors_list : list string).

Definition xcmd (A : Type) : Type := list xevent * outcome A.

#[global] Instance xcmd_ret : MRet xcmd := λ A a, ([], Done a).
#[global] Instance xcmd_bind : MBind xcmd := λ A B f m,
  match m with
  | (tr, Done a) => let '(tr', r) := f a in (tr ++ tr', r)
  | (tr, Exited) => (tr, Exited)
  | (tr, Raised e) => (tr, Raised e)
  end.

(** A step of the resolution layer, run inside a command. *)
Definition lift {A} (m : cmd A) : xcmd A := (XCore <$> m.1, m.2).

Definition xtrace {A} (m : xcmd A) : list xevent := m.1.
Definition xresult {A} (m : xcmd A) : outcome A := m.2.

Definition xemit (e : xevent) : xcmd unit := ([e], Done tt).
Definition xpass : xcmd unit := mret tt.
Definition xraise {A} (e : pyexn) : xcmd A := ([], Raised e).

Fixpoint xfor_each {A} (body : A → xcmd unit) (l : list A) : xcmd unit :=
  match l with
  | [] => mret tt
  | x :: l' => body x ;; xfor_each body l'
  end.

(** [servers[name]] *)
Definition getitem (servers : gmap string (option Server)) (name : string)
  : xcmd (option Server) :=
  match servers !! name with
  | Some server => mret server
  | None => xraise KeyError
  end.

Section OtherCommands.
Variable cfg : barman_config.Config.
Variable B : Backend.

(** The loop body of [status]. *)
Definition status_step (servers : gmap string (option Server))
    (name : string) : xcmd unit :=
  server ← getitem servers name;
  unknown ← lift (is_unknown_server server name);
  if (unknown : bool) then xpass
  else
    match server with
    | None => xraise AttributeError
    | Some server =>
        lift (server_error_output server false true) ;;
        xemit (XInit "status" name None) ;;
        xemit (XServer op_status server)
    end.

Definition status (server_name : list string) : xcmd unit :=
  servers ← lift (get_server_list cfg (Some server_name)
                    false false true false);
  xfor_each (status_step servers) (sorted_keys servers) ;;
  lift output.close_and_exit.

(** The loop body of [rebuild_xlogdb]. *)
Definition rebuild_xlogdb_step (servers : gmap string (option Server))
    (name : string) : xcmd unit :=
  server ← getitem servers name;
  unknown ← lift (is_unknown_server server name);
  if (unknown : bool) then xpass
  else
    match server with
    | None => xraise AttributeError
    | Some server =>
        lift (server_error_output server true true) ;;
        xemit (XServer op_rebuild_xlogdb server)
    end.

Definition rebuild_xlogdb (server_name : list string) : xcmd unit :=
  servers ← lift (get_server_list cfg (Some server_name)
                    false false true false);
  xfor_each (rebuild_xlogdb_step servers) (sorted_keys servers) ;;
  lift output.close_and_exit.

(** The loop body of [show_server]. *)
Definition show_server_step (servers : gmap string (option Server))
    (name : string) : xcmd unit :=
  server ← getitem servers name;
  unknown ← lift (is_unknown_server server name);
  if (unknown : bool) then xpass
  else
    match server with
    | None => xraise AttributeError
    | Some server =>
        lift (server_error_output server false false) ;;
        xemit (XInit "show_server" name None) ;;
        xemit (XServer op_show server)
    end.

Definition show_server (server_name : list string) : xcmd unit :=
  servers ← lift (get_server_list cfg (Some server_name)
                    false false true false);
  xfor_each (show_server_step servers) (sorted_keys servers) ;;
  lift output.close_and_exit.

(** The loop body of [list_backup]: the output is initialised before the
    server is looked at. *)
Definition list_backup_step (minimal : bool)
    (servers : gmap string (option Server)) (name : string) : xcmd unit :=
  server ← getitem servers name;
  xemit (XInit "list_backup" name (Some minimal)) ;;
  unknown ← lift (is_unknown_server server name);
  if (unknown : bool) then xpass
  else
    match server with
    | None => xraise AttributeError
    | Some server =>
        lift (server_error_output server false true) ;;
        xemit (XServer op_list_backups server)
    end.

Definition list_backup (server_name : list string) (minimal : bool)
  : xcmd unit :=
  servers ← lift (get_server_list cfg (Some server_name)
                    false false true false);
  xfor_each (list_backup_step minimal servers) (sorted_keys servers) ;;
  lift output.close_and_exit.

(** The loop body of [check]. *)
Definition check_step (servers : gmap string (option Server))
    (name : string) : xcmd unit :=
  server ← getitem servers name;
  unknown ← lift (is_unknown_server server name);
  if (unknown : bool) then xpass
  else
    match server with
    | None => xraise AttributeError
    | Some server =>
        let name :=
          if negb (active (config server)) then name +:+ " (not active)"
          else name in
        xemit (XInit "check" name None) ;;
        xemit (XServer op_check server)
    end.

Definition check (server_name : list string) (nagios : bool) : xcmd unit :=
  (if nagios then xemit XNagiosWriter else xpass) ;;
  servers ← lift (get_server_list cfg (Some server_name)
                    true false true false);
  xfor_each (check_step servers) (sorted_keys servers) ;;
  lift output.close_and_exit.

Definition diagnose : xcmd unit :=
  servers ← lift (get_server_list cfg None false false false true);
  let errors_list :=
    if bool_decide (servers ≠ ∅) then barman_config.servers_msg_list cfg
    else [] in
  xemit (XDiagnose servers errors_list) ;;
  lift output.close_and_exit.

Definition show_backup (server_name backup_id : string) : xcmd unit :=
  server ← lift (get_server cfg server_name false);
  unknown ← lift (is_unknown_server server server_name);
  (if negb unknown then
     match server with
     | None => xraise AttributeError
     | Some server =>
         match parse_backup_id B server backup_id with
         | None =>
             lift (output.error (unknown_backup_msg backup_id server_name))
         | Some backup_info => xemit (XBackup op_show_backup server backup_info)
         end
     end
   else xpass) ;;
  lift output.close_and_exit.

Definition delete (server_name backup_id : string) : xcmd unit :=
  server ← lift (get_server cfg server_name true);
  unknown ← lift (is_unknown_server server server_name);
  (if (unknown : bool) then lift output.close_and_exit else xpass) ;;
  match server with
  | None => xraise AttributeError
  | Some server =>
      let backup := parse_backup_id B server backup_id in
      match backup with
      | None =>
          lift (output.error (unknown_backup_msg backup_id server_name)) ;;
          lift output.close_and_exit
      | Some backup =>
          xemit (XBackup op_delete_backup server backup) ;;
          lift output.close_and_exit
      end
  end.
End OtherCommands.

(** ** Option values *)

(** [check_positive(value)], the argparse type of --retry-times and
    --retry-sleep.  [int] stands for Python's [int(value)] on the text of
    an option, [None] when it raises; the result is [inl msg] when
    [ArgumentTypeError(msg)] is raised. *)
Definition check_positive (int : string → option Z) (value : option string)
  : string + option Z :=
  match value with
  | None => inr None
  | Some value =>
      match int value with
      | None => inl ("'" +:+ value +:+ "' is not a valid positive integer")
      | Some int_value =>
          if (int_value <? 0)%Z then
            inl ("'" +:+ value +:+ "' is not a valid positive integer")
          else inr (Some int_value)
      end
  end.

(** ** Reading of the relocation rules, to compare the decoder with *)

Definition has_colon (rule : string) : bool := str_contains colon rule.

(** The first rule without a ':' (the first malformed one), if any. *)
Definition first_malformed (rules : list string) : option string :=
  List.find (λ rule, negb (has_colon rule)) rules.

(** Last-wins reading of a rule list: the location given by the last rule
    whose name is [k]. *)
Fixpoint last_location (k : string) (rules : list string) : option string :=
  match rules with
  | [] => None
  | rule :: rules' =>
      match last_location k rules' with
      | Some v => Some v
      | None =>
          match str_partition colon rule with
          | Some (h, t) => if decide (h = k) then Some t else None
          | None => None
          end
      end
  end.

(** ** Reading of a resolution request, to compare the resolver with *)

(** The request stands for every configured server: no server argument, or
    'all' as the first requested name. *)
Definition is_all_request (args : option (list string)) : bool :=
  match args with
  | None => true
  | Some [] => false
  | Some (first :: _) => bool_decide (first = "all")
  end.

(** A configured server passes the skip filters. *)
Definition kept (skip_inactive skip_disabled : bool) (conf : ServerConfig)
  : bool :=
  negb (skip_inactive && negb (active conf))
  && negb (skip_disabled && disabled conf).

(** The four symbolic backup identifiers. *)
Definition is_alias (backup_id : string) : bool :=
  bool_decide (backup_id ∈ ["latest"; "last"; "oldest"; "first"]).

(** [args] with other relocation rules and another destination. *)
Definition with_target (args : RecoverArgs) (rules : option (list string))
    (destination : string) : RecoverArgs :=
  {| server_name := server_name args; backup_id := backup_id args;
     destination_directory := destination; tablespace := rules;
     target_tli := target_tli args; target_time := target_time args;
     target_xid := target_xid args; target_name := target_name args;
     exclusive := exclusive args;
     remote_ssh_command := remote_ssh_command args;
     retry_times := retry_times args; retry_sleep := retry_sleep args |}.

(** A command was rejected: it exited, an error was reported on the way and
    [server.recover] was not called. *)
Definition rejected {A} (m : cmd A) : Prop :=
  result m = Exited ∧
  output.error_occurred (trace m) = true ∧
  ∀ call, ERecover call ∉ trace m.

(** A step that either returns silently or rejects the command. *)
Definition harmless {A} (m : cmd A) : Prop :=
  (∃ a, m = ([], Done a)) ∨ rejected m.

(** ** Readings used by the further properties *)

(** The info message announcing that [conf] is left out of an 'all'
    request. *)
Definition skip_info (skip_inactive : bool) (conf : ServerConfig) : event :=
  EInfo (if skip_inactive && negb (active conf)
         then "Skipping inactive server '" +:+ name conf +:+ "'"
         else "Skipping temporarily disabled server '" +:+ name conf +:+ "'").

(** The configuration with its global conflicts removed. *)
Definition without_conflicts (cfg : barman_config.Config)
  : barman_config.Config :=
  {| barman_config.servers := barman_config.servers cfg;
     barman_config.get_server := barman_config.get_server cfg;
     barman_config.servers_msg_list := [];
     barman_config.barman_lock_directory :=
       barman_config.barman_lock_directory cfg |}.

(** What the global check of [get_server_list] emits when it lets the
    resolution go on. *)
Definition conflict_errors (cfg : barman_config.Config)
    (suppress_error : bool) : list event :=
  if suppress_error then []
  else EError <$> barman_config.servers_msg_list cfg.

(** The tablespace names a relocation rule may use for [backup]: the
    list [valid_tablespaces] of [recover]. *)
Definition valid_names (backup : BackupInfo.t) : list string :=
  match BackupInfo.tablespaces backup with
  | Some ((_ :: _) as l) => ts_name <$> l
  | _ => []
  end.

(** The first of [items] that is not a tablespace of the backup. *)
Definition first_invalid (valid_tablespaces items : list string)
  : option string :=
  List.find (λ item, negb (bool_decide (item ∈ valid_tablespaces))) items.

(** The call [recover] makes once every check has passed. *)
Definition recover_call (args : RecoverArgs) (server : Server)
    (backup : BackupInfo.t) (tablespaces : gmap string string) : RecoverCall :=
  {| rc_server :=
       {| config := set_retry_times (retry_times args)
                      (set_retry_sleep (retry_sleep args) (config server)) |};
     rc_backup := backup;
     rc_dest := destination_directory args;
     rc_tablespaces := tablespaces;
     rc_target_tli := target_tli args;
     rc_target_time := target_time args;
     rc_target_xid := target_xid args;
     rc_target_name := target_name args;
     rc_exclusive := exclusive args;
     rc_remote_command := remote_ssh_command args |}.

(** The body of the loop of [cron], for the resolved mapping [servers]. *)
Definition cron_step (servers : gmap string (option Server))
    (server : string) : cmd unit :=
  match servers !! server with
  | Some (Some s) => server_error_output s true true ;; emit (ECron s)
  | Some None => raise AttributeError
  | None => raise KeyError
  end.

(** ** A sample installation

    Two configured servers: [main] is healthy, [aux] is both disabled and
    inactive.  [sample] has no global conflict, [clashing] has two. *)

Module sample.
Definition main : ServerConfig :=
  {| name := "main"; active := true; disabled := false; msg_list := [];
     basebackup_retry_times := None; basebackup_retry_sleep := None |}.

Definition aux : ServerConfig :=
  {| name := "aux"; active := false; disabled := true;
     msg_list := ["bad path"; "bad conninfo"];
     basebackup_retry_times := None; basebackup_retry_sleep := None |}.

Definition lookup (n : string) : option ServerConfig :=
  if String.eqb n "main" then Some main
  else if String.eqb n "aux" then Some aux
  else None.

Definition cfg : barman_config.Config :=
  {| barman_config.servers := [main; aux];
     barman_config.get_server := lookup;
     barman_config.servers_msg_list := [];
     barman_config.barman_lock_directory := "/var/lib/barman" |}.

Definition clashing : barman_config.Config :=
  {| barman_config.servers := [main; aux];
     barman_config.get_server := lookup;
     barman_config.servers_msg_list := ["conflict A"; "conflict B"];
     barman_config.barman_lock_directory := "/var/lib/barman" |}.

Definition done_backup : BackupInfo.t :=
  {| BackupInfo.backup_id := "20150101T000000";
     BackupInfo.status := BackupInfo.DONE;
     BackupInfo.tablespaces := Some [{| ts_name := "a"; ts_location := "/a" |}] |}.

Definition failed_backup : BackupInfo.t :=
  {| BackupInfo.backup_id := "20150102T000000";
     BackupInfo.status := BackupInfo.FAILED;
     BackupInfo.tablespaces := None |}.

(** A catalogue with one completed and, after it, one failed backup. *)
Definition catalogue : Backend :=
  {| get_last_backup := λ _, Some "20150102T000000";
     get_first_backup := λ _, Some "20150101T000000";
     get_backup := λ _ id,
       match id with
       | Some id =>
           if String.eqb id "20150101T000000" then Some done_backup
           else if String.eqb id "20150102T000000" then Some failed_backup
           else None
       | None => None
       end |}.

Definition keys (d : gmap string string) : list string := (map_to_list d).*1.

Definition args (backup_id destination : string) : RecoverArgs :=
  {| server_name := "main"; backup_id := backup_id;
     destination_directory := destination;
     tablespace := Some ["a:/x"];
     target_tli := None; target_time := None; target_xid := None;
     target_name := None; exclusive := false; remote_ssh_command := None;
     retry_times := Some 3%Z; retry_sleep := None |}.
End sample.

(** ** A second sample installation

    Three servers configured out of name order: [pg2] and [pg1] are
    healthy, [standby] is inactive; [broken] is active but disabled. *)

Module fleet.
Definition healthy (n : string) : ServerConfig :=
  {| name := n; active := true; disabled := false; msg_list := [];
     basebackup_retry_times := None; basebackup_retry_sleep := None |}.

Definition pg1 : ServerConfig := healthy "pg1".
Definition pg2 : ServerConfig := healthy "pg2".

Definition standby : ServerConfig :=
  {| name := "standby"; active := false; disabled := false; msg_list := [];
     basebackup_retry_times := None; basebackup_retry_sleep := None |}.

Definition broken : ServerConfig :=
  {| name := "pg1b"; active := true; disabled := true;
     msg_list := ["duplicate path"];
     basebackup_retry_times := None; basebackup_retry_sleep := None |}.

Definition lookup (confs : list ServerConfig) (n : string)
  : option ServerConfig :=
  List.find (λ conf, String.eqb (name conf) n) confs.

Definition installation (confs : list ServerConfig) : barman_config.Config :=
  {| barman_config.servers := confs;
     barman_config.get_server := lookup confs;
     barman_config.servers_msg_list := [];
     barman_config.barman_lock_directory := "/var/lib/barman" |}.

Definition cfg : barman_config.Config := installation [pg2; standby; pg1].

Definition with_broken : barman_config.Config :=
  installation [pg2; broken; pg1].
End fleet.

(** * Properties *)

(** ** The command monad *)

Lemma bind_done {A B} (tr : list event) (a : A) (f : A → cmd B) :
  (tr, Done a) ≫= f = (tr ++ (f a).1, (f a).2).
Proof. unfold mbind, cmd_bind. by destruct (f a). Qed.

Lemma bind_exited {A B} (tr : list event) (f : A → cmd B) :
  (tr, @Exited A) ≫= f = (tr, Exited).
Proof. reflexivity. Qed.

Lemma bind_raised {A B} (tr : list event) e (f : A → cmd B) :
  (tr, @Raised A e) ≫= f = (tr, Raised e).
Proof. reflexivity. Qed.

Lemma bind_ret {A B} (a : A) (f : A → cmd B) : (mret a ≫= f) = f a.
Proof. unfold mret, cmd_ret. rewrite bind_done. by destruct (f a). Qed.

Lemma bind_pass {B} (k : cmd B) : (pass ;; k) = k.
Proof. unfold pass, mret, cmd_ret. rewrite bind_done. by destruct k. Qed.

(** Runs the binds of a command whose parts are explicit. *)
Ltac run_cmd :=
  unfold output.close_and_exit, output.error, output.warning, output.info,
    emit, pass, raise, mret, cmd_ret, mbind, cmd_bind;
  simpl; rewrite ?app_nil_r.

Lemma for_each_emit (level : string → event) (l : list string) :
  for_each (λ msg, emit (level msg)) l = (level <$> l, Done tt).
Proof.
  induction l as [|msg l IH]; [done|].
  simpl. rewrite IH. reflexivity.
Qed.

Lemma for_each_error (l : list string) :
  for_each output.error l = (EError <$> l, Done tt).
Proof. apply (for_each_emit EError). Qed.

Lemma for_each_warning (l : list string) :
  for_each output.warning l = (EWarning <$> l, Done tt).
Proof. apply (for_each_emit EWarning). Qed.

(** ** Classification of a disabled target *)

(** C4: a disabled server has every message of its [msg_list] emitted, in
    order and nothing else: as errors followed by the exit when [is_error]
    is set, as warnings with a normal return otherwise.  The result does
    not depend on [check_active] nor on the server being active, so no
    'Not active server' message is added. *)
Theorem server_error_output_disabled
    (server : Server) (is_error check_active : bool) :
  disabled (config server) = true →
  server_error_output server is_error check_active =
    (if is_error
     then (EError <$> msg_list (config server), Exited)
     else (EWarning <$> msg_list (config server), Done tt))
  ∧ (∀ e, e ∈ trace (server_error_output server is_error check_active) →
          ∃ msg, msg ∈ msg_list (config server) ∧
                 e = (if is_error then EError msg else EWarning msg)).
Proof.
  intros Hdis.
  assert (server_error_output server is_error check_active =
    (if is_error
     then (EError <$> msg_list (config server), Exited)
     else (EWarning <$> msg_list (config server), Done tt))) as Heq.
  { unfold server_error_output. rewrite Hdis.
    destruct is_error.
    - rewrite for_each_error. by run_cmd.
    - rewrite for_each_warning. by run_cmd. }
  split; [exact Heq|].
  intros e. rewrite Heq. unfold trace.
  destruct is_error; simpl; intros Hin;
    apply list_elem_of_fmap in Hin as (msg & -> & Hmsg); eauto.
Qed.

Lemma server_error_output_disabled_witness :
  disabled (config {| config := sample.aux |}) = true ∧
  server_error_output {| config := sample.aux |} true true =
    ([EError "bad path"; EError "bad conninfo"], Exited).
Proof.
  split; [reflexivity|].
  apply (server_error_output_disabled {| config := sample.aux |} true true).
  reflexivity.
Defined.

(** ** Global conflicts *)

Lemma global_check_stop (gl : list string) (suppress_error : bool) {A}
    (k : cmd A) :
  gl ≠ [] →
  ((if bool_decide (gl ≠ []) then
      (if negb suppress_error then for_each output.error gl else pass) ;;
      (if true then output.close_and_exit else pass)
    else pass) ;; k) =
  (if suppress_error then [] else EError <$> gl, Exited).
Proof.
  intros Hgl. rewrite bool_decide_eq_true_2 by done.
  destruct suppress_error; simpl.
  - by run_cmd.
  - rewrite for_each_error. by run_cmd.
Qed.

(** C2, as stated, fails: with [suppress_error] set the conflicts are not
    emitted although [on_error_stop] is set and the list is non-empty. *)
Lemma get_server_list_stop_suppressed :
  barman_config.servers_msg_list sample.clashing ≠ [] ∧
  ∀ msg, msg ∈ barman_config.servers_msg_list sample.clashing →
    EError msg ∉
      trace (get_server_list sample.clashing (Some ["main"])
               false false true true).
Proof. split; [done|]. intros msg _. apply not_elem_of_nil. Qed.

(** C2 (amended): with [on_error_stop] set and a non-empty global conflict
    list, [get_server_list] resolves no target and ends the command through
    [close_and_exit], whatever names were requested and whatever the skip
    flags are.  Unless [suppress_error] is set, each conflict message is
    emitted once as an error, in order; when it is set nothing is emitted. *)
Theorem get_server_list_global_conflict
    (cfg : barman_config.Config) (args : option (list string))
    (skip_inactive skip_disabled suppress_error : bool) :
  barman_config.servers_msg_list cfg ≠ [] →
  get_server_list cfg args skip_inactive skip_disabled true suppress_error =
    (if suppress_error then []
     else EError <$> barman_config.servers_msg_list cfg,
     Exited).
Proof.
  intros Hgl. unfold get_server_list.
  by apply global_check_stop.
Qed.

Lemma get_server_list_global_conflict_witness :
  barman_config.servers_msg_list sample.clashing ≠ [] ∧
  get_server_list sample.clashing (Some ["aux"; "nosuch"]) true false true false
    = ([EError "conflict A"; EError "conflict B"], Exited).
Proof.
  split; [done|].
  apply (get_server_list_global_conflict sample.clashing
           (Some ["aux"; "nosuch"]) true false false).
  done.
Defined.

(** ** Backup identifier aliases *)

(** C7: 'latest' and 'last' resolve to the same record, the one
    [get_backup] gives for [get_last_backup]; 'oldest' and 'first' likewise
    with [get_first_backup].  Any other identifier is looked up literally,
    so its resolution only depends on what [get_backup] answers: two
    catalogues that agree on [get_backup] resolve it to the same record. *)
Theorem parse_backup_id_aliases
    (B B' : Backend) (server : Server) (backup_id : string) :
  is_alias backup_id = false →
  (∀ id, get_backup B' server id = get_backup B server id) →
  parse_backup_id B server "latest" = parse_backup_id B server "last"
  ∧ parse_backup_id B server "last"
      = get_backup B server (get_last_backup B server)
  ∧ parse_backup_id B server "oldest" = parse_backup_id B server "first"
  ∧ parse_backup_id B server "first"
      = get_backup B server (get_first_backup B server)
  ∧ parse_backup_id B server backup_id
      = get_backup B server (Some backup_id)
  ∧ parse_backup_id B' server backup_id = parse_backup_id B server backup_id.
Proof.
  intros Hlit Hsame.
  assert (∀ C, parse_backup_id C server backup_id
               = get_backup C server (Some backup_id)) as Hliteral.
  { intros C. unfold parse_backup_id.
    apply bool_decide_eq_false in Hlit.
    destruct (String.eqb_spec backup_id "latest") as [->|_];
      [exfalso; apply Hlit; set_solver|].
    destruct (String.eqb_spec backup_id "last") as [->|_];
      [exfalso; apply Hlit; set_solver|].
    destruct (String.eqb_spec backup_id "oldest") as [->|_];
      [exfalso; apply Hlit; set_solver|].
    destruct (String.eqb_spec backup_id "first") as [->|_];
      [exfalso; apply Hlit; set_solver|].
    reflexivity. }
  repeat split; try reflexivity.
  - apply Hliteral.
  - by rewrite !Hliteral, Hsame.
Qed.

Lemma parse_backup_id_aliases_witness :
  parse_backup_id sample.catalogue {| config := sample.main |} "latest"
    = Some sample.failed_backup
  ∧ parse_backup_id sample.catalogue {| config := sample.main |} "20150101T000000"
    = get_backup sample.catalogue {| config := sample.main |}
        (Some "20150101T000000").
Proof.
  destruct (parse_backup_id_aliases sample.catalogue sample.catalogue
              {| config := sample.main |} "20150101T000000")
    as (Hlatest & Hlast & _ & _ & Hlit & _).
  - reflexivity.
  - reflexivity.
  - split; [by rewrite Hlatest, Hlast | exact Hlit].
Defined.

(** ** The cron lock *)

(** C8, as stated, fails: a busy lock is reported at level info, no error
    is emitted and the exit status stays zero. *)
Lemma cron_busy_not_an_error :
  cron sample.cfg LockFileBusy = ([EInfo "Another cron is running"], Exited)
  ∧ output.error_occurred (trace (cron sample.cfg LockFileBusy)) = false
  ∧ output.exit_status (trace (cron sample.cfg LockFileBusy)) = 0%Z.
Proof. repeat split. Qed.

(** C8 (amended): when the global lock is not acquired no server is
    resolved and no server's cron runs; the command exits right after one
    diagnostic.  The two failures have distinct diagnostics: a busy lock is
    an info message only (no error, exit status zero), a permission failure
    is an error naming the path (non-zero exit status). *)
Theorem cron_lock_failure (cfg : barman_config.Config) (e : string) :
  cron cfg LockFileBusy = ([EInfo "Another cron is running"], Exited)
  ∧ cron cfg (LockFilePermissionDenied e)
      = ([EError ("Permission denied, unable to access '" +:+ e +:+ "'")],
         Exited)
  ∧ output.exit_status (trace (cron cfg LockFileBusy)) = 0%Z
  ∧ output.exit_status (trace (cron cfg (LockFilePermissionDenied e))) ≠ 0%Z
  ∧ trace (cron cfg LockFileBusy)
      ≠ trace (cron cfg (LockFilePermissionDenied e))
  ∧ (∀ s, ECron s ∉ trace (cron cfg LockFileBusy))
  ∧ (∀ s, ECron s ∉ trace (cron cfg (LockFilePermissionDenied e))).
Proof.
  repeat split; try done;
    intros s Hin; apply list_elem_of_singleton in Hin; discriminate.
Qed.

(** ** Decoding the tablespace relocation rules *)

Lemma str_partition_None (c : ascii) (s : string) :
  str_partition c s = None ↔ str_contains c s = false.
Proof.
  induction s as [|a s IH]; simpl; [done|].
  destruct (Ascii.eqb a c); [done|].
  destruct (str_partition c s) as [[h t]|]; split; intros H; try done.
  - apply IH in H. done.
  - by apply IH.
Qed.

Lemma str_partition_Some (c : ascii) (s h t : string) :
  str_partition c s = Some (h, t) →
  s = h +:+ String c t ∧ str_contains c h = false.
Proof.
  revert h. induction s as [|a s IH]; intros h; simpl; [done|].
  destruct (Ascii.eqb_spec a c) as [->|Hne].
  - intros [= <- <-]. done.
  - destruct (str_partition c s) as [[h' t']|]; [|done].
    intros [= <- <-]. destruct (IH h' eq_refl) as [-> Hh]. simpl.
    split; [done|].
    destruct (Ascii.eqb_spec a c); done.
Qed.

Lemma decode_rule_spec (d : gmap string string) (rule : string) :
  decode_rule d rule =
    match str_partition colon rule with
    | Some (h, t) => ([], Done (<[h := t]> d))
    | None => ([EError (invalid_rule_msg rule)], Exited)
    end.
Proof.
  unfold decode_rule, str_split1.
  destruct (str_partition colon rule) as [[h t]|]; reflexivity.
Qed.

Lemma decode_fold_spec (rules : list string) (d : gmap string string) :
  match first_malformed rules with
  | Some bad =>
      for_fold decode_rule d rules = ([EError (invalid_rule_msg bad)], Exited)
  | None =>
      ∃ m, for_fold decode_rule d rules = ([], Done m) ∧
           ∀ k, m !! k = match last_location k rules with
                         | Some v => Some v
                         | None => d !! k
                         end
  end.
Proof.
  revert d. induction rules as [|rule rules IH]; intros d; simpl.
  - by exists d.
  - rewrite decode_rule_spec. unfold has_colon.
    destruct (str_partition colon rule) as [[h t]|] eqn:Hp.
    + assert (str_contains colon rule = true) as ->.
      { destruct (str_contains colon rule) eqn:Hc; [done|].
        apply str_partition_None in Hc. congruence. }
      simpl. specialize (IH (<[h := t]> d)).
      destruct (first_malformed rules) as [bad|].
      * by rewrite IH.
      * destruct IH as (m & -> & Hm).
        exists m. split; [done|]. intros k. rewrite Hm.
        destruct (last_location k rules); [done|].
        destruct (decide (h = k)) as [->|Hne].
        -- by rewrite lookup_insert_eq.
        -- by rewrite lookup_insert_ne.
    + apply str_partition_None in Hp. rewrite Hp. simpl. done.
Qed.

Lemma first_malformed_app (good : list string) (bad : string)
    (rest : list string) :
  Forall (λ rule, has_colon rule = true) good →
  has_colon bad = false →
  first_malformed (good ++ bad :: rest) = Some bad.
Proof.
  intros Hgood Hbad. induction Hgood as [|r good Hr _ IH]; simpl.
  - by rewrite Hbad.
  - by rewrite Hr.
Qed.

Lemma first_malformed_None (rules : list string) :
  Forall (λ rule, has_colon rule = true) rules →
  first_malformed rules = None.
Proof.
  induction 1 as [|r rules Hr _ IH]; simpl; [done|]. by rewrite Hr.
Qed.

(** C3, as stated, fails: a rule with an empty name part is decoded without
    any error, and so is one with an empty location part. *)
Lemma decode_tablespaces_empty_parts :
  decode_tablespaces (Some [":/x"]) = ([], Done {[ "" := "/x" ]})
  ∧ decode_tablespaces (Some ["a:"]) = ([], Done {[ "a" := "" ]}).
Proof. split; reflexivity. Qed.

(** C3 (amended): a rule is split in two parts at its first ':' and either
    part may be empty.  A rule without ':' produces an error quoting the
    rule as given, and decoding stops there: the rules after the first
    such rule are not looked at. *)
Theorem decode_tablespaces_fail_fast
    (good : list string) (bad : string) (rest : list string) :
  Forall (λ rule, has_colon rule = true) good →
  has_colon bad = false →
  decode_tablespaces (Some (good ++ bad :: rest))
    = ([EError ("Invalid tablespace relocation rule '" +:+ bad +:+ "'" +:+ nl
                +:+ "HINT: The valid syntax for a relocation rule is "
                +:+ "NAME:LOCATION")],
       Exited)
  ∧ (∀ rule d, rule ∈ good →
       ∃ h t, rule = h +:+ ":" +:+ t ∧ has_colon h = false ∧
              decode_rule d rule = ([], Done (<[h := t]> d))).
Proof.
  intros Hgood Hbad. split.
  - pose proof (decode_fold_spec (good ++ bad :: rest) ∅) as H.
    rewrite (first_malformed_app good bad rest Hgood Hbad) in H.
    exact H.
  - intros rule d Hin.
    rewrite Forall_forall in Hgood. specialize (Hgood rule Hin).
    rewrite decode_rule_spec.
    destruct (str_partition colon rule) as [[h t]|] eqn:Hp.
    + apply str_partition_Some in Hp as [-> Hh]. by exists h, t.
    + apply str_partition_None in Hp. unfold has_colon in Hgood. congruence.
Qed.

Lemma decode_tablespaces_fail_fast_witness :
  decode_tablespaces (Some (["a:/x"; ":/y"] ++ "malformed" :: ["b:/z"; "worse"]))
    = ([EError (invalid_rule_msg "malformed")], Exited).
Proof.
  apply (decode_tablespaces_fail_fast ["a:/x"; ":/y"] "malformed"
           ["b:/z"; "worse"]).
  - repeat constructor.
  - reflexivity.
Defined.

(** C6: when every rule has a ':', decoding succeeds without output and
    maps each name to the location of the last rule with that name; so
    ["a:/x"; "b:/y"] gives {a: "/x", b: "/y"} and ["a:/x"; "a:/z"] gives
    {a: "/z"}. *)
Theorem decode_tablespaces_last_wins (rules : list string) :
  Forall (λ rule, has_colon rule = true) rules →
  (∃ m, decode_tablespaces (Some rules) = ([], Done m) ∧
        ∀ k, m !! k = last_location k rules)
  ∧ decode_tablespaces (Some ["a:/x"; "b:/y"])
      = ([], Done {[ "a" := "/x"; "b" := "/y" ]})
  ∧ decode_tablespaces (Some ["a:/x"; "a:/z"])
      = ([], Done {[ "a" := "/z" ]}).
Proof.
  intros Hwf. split; [|split; reflexivity].
  pose proof (decode_fold_spec rules ∅) as H.
  rewrite (first_malformed_None rules Hwf) in H.
  destruct H as (m & Hm & Hk). exists m. split; [exact Hm|].
  intros k. rewrite Hk. destruct (last_location k rules); [done|].
  apply lookup_empty.
Qed.

Lemma decode_tablespaces_last_wins_witness :
  Forall (λ rule, has_colon rule = true) ["a:/x"; "b:/y"; "a:/z"] ∧
  ∃ m, decode_tablespaces (Some ["a:/x"; "b:/y"; "a:/z"]) = ([], Done m) ∧
       m !! "a" = Some "/z" ∧ m !! "b" = Some "/y" ∧ m !! "c" = None.
Proof.
  assert (Forall (λ rule, has_colon rule = true) ["a:/x"; "b:/y"; "a:/z"])
    as Hwf by (repeat constructor).
  split; [exact Hwf|].
  destruct (decode_tablespaces_last_wins _ Hwf) as [(m & Hm & Hk) _].
  exists m. split; [exact Hm|]. rewrite !Hk. done.
Defined.

(** ** Resolution of the requested servers *)

Section ResolutionFacts.
Variable cfg : barman_config.Config.

(** The global check lets the resolution go on when there is no global
    conflict or when [on_error_stop] is off. *)
Lemma global_check_continue (on_error_stop suppress_error : bool) {A}
    (k : cmd A) :
  barman_config.servers_msg_list cfg = [] ∨ on_error_stop = false →
  ((if bool_decide (barman_config.servers_msg_list cfg ≠ []) then
      (if negb suppress_error then
         for_each output.error (barman_config.servers_msg_list cfg)
       else pass) ;;
      (if on_error_stop then output.close_and_exit else pass)
    else pass) ;; k)
  = ((if suppress_error then []
      else EError <$> barman_config.servers_msg_list cfg) ++ k.1,
     k.2).
Proof.
  intros Hgo. case_bool_decide as Hgl.
  - destruct Hgo as [?| ->]; [done|].
    destruct suppress_error; simpl.
    + run_cmd. by destruct k.
    + rewrite for_each_error. run_cmd. by destruct k.
  - rewrite Hgl. run_cmd. destruct k, suppress_error; done.
Qed.

Lemma named_fold_spec (names : list string)
    (d : gmap string (option Server)) :
  ∃ m, for_fold (named_servers_step cfg) d names = ([], Done m) ∧
       ∀ n, m !! n = if decide (n ∈ names)
                     then Some (Build_Server <$> barman_config.get_server cfg n)
                     else d !! n.
Proof.
  revert d. induction names as [|x names IH]; intros d; cbn [for_fold].
  - exists d. split; [done|]. intros n.
    rewrite decide_False; [done|]. apply not_elem_of_nil.
  - set (d' := <[x := Build_Server <$> barman_config.get_server cfg x]> d).
    assert (named_servers_step cfg d x = ([], Done d')) as ->.
    { unfold named_servers_step, d'.
      by destruct (barman_config.get_server cfg x). }
    destruct (IH d') as (m & Hm & Hk). rewrite bind_done, Hm. simpl.
    exists m. split; [done|]. intros n. rewrite Hk.
    destruct (decide (n ∈ names)) as [Hin|Hnin].
    + rewrite decide_True; [done|]. apply elem_of_cons. by right.
    + unfold d'. destruct (decide (n = x)) as [->|Hne].
      * rewrite lookup_insert_eq. rewrite decide_True; [done|].
        apply elem_of_cons. by left.
      * rewrite lookup_insert_ne by done.
        rewrite decide_False; [done|].
        intros [?|?]%elem_of_cons; done.
Qed.

Lemma all_servers_step_spec (skip_inactive skip_disabled : bool)
    (d : gmap string (option Server)) (conf : ServerConfig) :
  ∃ tr, all_servers_step skip_inactive skip_disabled d conf =
        (tr, Done (if kept skip_inactive skip_disabled conf
                   then <[name conf := Some {| config := conf |}]> d
                   else d)).
Proof.
  unfold all_servers_step, kept.
  destruct (skip_inactive && negb (active conf));
    [|destruct (skip_disabled && disabled conf)]; simpl; eauto.
Qed.

Lemma all_fold_spec (skip_inactive skip_disabled : bool)
    (confs : list ServerConfig) (d : gmap string (option Server)) :
  ∃ tr m,
    for_fold (all_servers_step skip_inactive skip_disabled) d confs
      = (tr, Done m) ∧
    (∀ n, is_Some (d !! n) → is_Some (m !! n)) ∧
    (∀ conf, conf ∈ confs → kept skip_inactive skip_disabled conf = true →
             is_Some (m !! name conf)) ∧
    (∀ n v, m !! n = Some v →
            d !! n = Some v ∨
            ∃ conf, conf ∈ confs ∧ name conf = n ∧
                    kept skip_inactive skip_disabled conf = true ∧
                    v = Some {| config := conf |}).
Proof.
  revert d. induction confs as [|conf confs IH]; intros d; cbn [for_fold].
  - exists [], d. split; [done|]. split; [done|]. split.
    + intros conf Hin. by apply elem_of_nil in Hin.
    + intros n v Hv. by left.
  - destruct (all_servers_step_spec skip_inactive skip_disabled d conf)
      as [tr0 ->].
    rewrite bind_done.
    destruct (kept skip_inactive skip_disabled conf) eqn:Hk.
    + destruct (IH (<[name conf := Some {| config := conf |}]> d))
        as (tr & m & Hm & Hd & Hkept & Hval).
      rewrite Hm. exists (tr0 ++ tr), m. split; [done|].
      split; [|split].
      * intros n Hn. apply Hd.
        destruct (decide (name conf = n)) as [<-|Hne].
        -- rewrite lookup_insert_eq. eauto.
        -- by rewrite lookup_insert_ne.
      * intros c Hc Hkc. apply elem_of_cons in Hc as [->|Hc].
        -- apply Hd. rewrite lookup_insert_eq. eauto.
        -- by apply Hkept.
      * intros n v Hv. destruct (Hval n v Hv) as [Hd'|(c & ? & ? & ? & ?)].
        -- destruct (decide (name conf = n)) as [<-|Hne].
           ++ rewrite lookup_insert_eq in Hd'. injection Hd' as <-.
              right. exists conf. split; [apply elem_of_cons; by left|done].
           ++ rewrite lookup_insert_ne in Hd' by done. by left.
        -- right. exists c. split; [apply elem_of_cons; by right|done].
    + destruct (IH d) as (tr & m & Hm & Hd & Hkept & Hval).
      rewrite Hm. exists (tr0 ++ tr), m. split; [done|].
      split; [exact Hd|split].
      * intros c Hc Hkc. apply elem_of_cons in Hc as [->|Hc].
        -- congruence.
        -- by apply Hkept.
      * intros n v Hv. destruct (Hval n v Hv) as [Hd'|(c & ? & ? & ? & ?)].
        -- by left.
        -- right. exists c. split; [apply elem_of_cons; by right|done].
Qed.
End ResolutionFacts.

Lemma get_server_list_named (cfg : barman_config.Config) (first : string)
    (rest : list string)
    (skip_inactive skip_disabled on_error_stop suppress_error : bool) :
  first ≠ "all" →
  barman_config.servers_msg_list cfg = [] ∨ on_error_stop = false →
  ∃ pre m,
    get_server_list cfg (Some (first :: rest)) skip_inactive skip_disabled
      on_error_stop suppress_error = (pre, Done m) ∧
    ∀ n, m !! n = if decide (n ∈ first :: rest)
                  then Some (Build_Server <$> barman_config.get_server cfg n)
                  else None.
Proof.
  intros Hfirst Hgo. unfold get_server_list.
  destruct (String.eqb_spec first "all") as [?|_]; [done|].
  destruct (named_fold_spec cfg (first :: rest) ∅) as (m & Hm & Hk).
  rewrite (global_check_continue cfg on_error_stop suppress_error _ Hgo).
  rewrite Hm. simpl. eexists _, m. split; [done|].
  intros n. rewrite Hk. by rewrite lookup_empty.
Qed.

Lemma get_server_list_all
    (cfg : barman_config.Config) (args : option (list string))
    (skip_inactive skip_disabled on_error_stop suppress_error : bool) :
  is_all_request args = true →
  barman_config.servers_msg_list cfg = [] ∨ on_error_stop = false →
  ∃ pre m,
    get_server_list cfg args skip_inactive skip_disabled
      on_error_stop suppress_error = (pre, Done m) ∧
    (∀ conf, conf ∈ barman_config.servers cfg →
             kept skip_inactive skip_disabled conf = true →
             is_Some (m !! name conf)) ∧
    (∀ n v, m !! n = Some v →
            ∃ conf, conf ∈ barman_config.servers cfg ∧ name conf = n ∧
                    kept skip_inactive skip_disabled conf = true ∧
                    v = Some {| config := conf |}).
Proof.
  intros Hall Hgo.
  destruct (all_fold_spec skip_inactive skip_disabled
              (barman_config.servers cfg) ∅)
    as (tr & m & Hm & _ & Hkept & Hval).
  assert (∃ pre, get_server_list cfg args skip_inactive skip_disabled
                   on_error_stop suppress_error = (pre, Done m)) as [pre Hrun].
  { unfold get_server_list.
    rewrite (global_check_continue cfg on_error_stop suppress_error _ Hgo).
    destruct args as [[|first rest]|]; simpl in Hall; [done| |].
    - apply bool_decide_eq_true in Hall as ->. simpl.
      rewrite Hm. eauto.
    - rewrite Hm. eauto. }
  exists pre, m. split; [exact Hrun|]. split; [exact Hkept|].
  intros n v Hv. destruct (Hval n v Hv) as [Hd|?]; [|done].
  by rewrite lookup_empty in Hd.
Qed.

(** C5: for an explicit list of names (its first name is not 'all') that
    the global check lets through, [get_server_list] returns a mapping
    whose keys are exactly the requested names: a name without
    configuration is mapped to [None], a configured name to the Server
    built from its configuration, whatever the other names are. *)
Theorem get_server_list_unknown_names
    (cfg : barman_config.Config) (names : list string)
    (skip_inactive skip_disabled on_error_stop suppress_error : bool) :
  names ≠ [] →
  head names ≠ Some "all" →
  barman_config.servers_msg_list cfg = [] ∨ on_error_stop = false →
  ∃ m,
    result (get_server_list cfg (Some names) skip_inactive skip_disabled
              on_error_stop suppress_error) = Done m ∧
    (∀ n, n ∈ names → barman_config.get_server cfg n = None →
          m !! n = Some None) ∧
    (∀ n conf, n ∈ names → barman_config.get_server cfg n = Some conf →
               m !! n = Some (Some {| config := conf |})) ∧
    dom m = list_to_set names.
Proof.
  intros Hne Hfirst Hgo. destruct names as [|first rest]; [done|].
  assert (first ≠ "all") as Hfirst' by (intros ->; by apply Hfirst).
  destruct (get_server_list_named cfg first rest skip_inactive skip_disabled
              on_error_stop suppress_error Hfirst' Hgo) as (pre & m & Hrun & Hk).
  exists m. rewrite Hrun. split; [done|]. split; [|split].
  - intros n Hin Hnone. rewrite Hk, decide_True by done. by rewrite Hnone.
  - intros n conf Hin Hconf. rewrite Hk, decide_True by done. by rewrite Hconf.
  - apply set_eq. intros n. rewrite elem_of_dom, elem_of_list_to_set, Hk.
    destruct (decide (n ∈ first :: rest)) as [Hin|Hnin].
    + split; [done|]. eauto.
    + split; [|done]. by intros [? ?].
Qed.

Lemma get_server_list_unknown_names_witness :
  ∃ m,
    result (get_server_list sample.cfg (Some ["nosuch"; "main"; "other"; "aux"])
              true true true false) = Done m ∧
    m !! "nosuch" = Some None ∧
    m !! "other" = Some None ∧
    m !! "main" = Some (Some {| config := sample.main |}) ∧
    m !! "aux" = Some (Some {| config := sample.aux |}).
Proof.
  destruct (get_server_list_unknown_names sample.cfg
              ["nosuch"; "main"; "other"; "aux"] true true true false)
    as (m & Hrun & Hunknown & Hknown & _).
  - done.
  - simpl. congruence.
  - left. reflexivity.
  - exists m. split; [exact Hrun|].
    split; [apply Hunknown; [set_solver|reflexivity]|].
    split; [apply Hunknown; [set_solver|reflexivity]|].
    split; apply Hknown; first [set_solver|reflexivity].
Defined.

(** C9: the 'all' sentinel counts only as the first requested name.  When
    the global check lets the resolution through, the result holds the
    configured servers that pass the skip filters exactly when no server
    argument is given or the first name is 'all' (the names after it are
    ignored); otherwise every requested name is looked up in the
    configuration, and so is an 'all' found at a later position, which maps
    to [None] unless a server of that name is configured. *)
Theorem get_server_list_all_sentinel (cfg : barman_config.Config)
    (args : option (list string))
    (skip_inactive skip_disabled on_error_stop suppress_error : bool) :
  args ≠ Some [] →
  barman_config.servers_msg_list cfg = [] ∨ on_error_stop = false →
  ∃ m,
    result (get_server_list cfg args skip_inactive skip_disabled
              on_error_stop suppress_error) = Done m ∧
    if is_all_request args then
      (∀ conf, conf ∈ barman_config.servers cfg →
               kept skip_inactive skip_disabled conf = true →
               is_Some (m !! name conf)) ∧
      (∀ n v, m !! n = Some v →
              ∃ conf, conf ∈ barman_config.servers cfg ∧ name conf = n ∧
                      kept skip_inactive skip_disabled conf = true ∧
                      v = Some {| config := conf |})
    else
      ∀ names, args = Some names →
        (∀ n, m !! n = if decide (n ∈ names)
                       then Some (Build_Server <$> barman_config.get_server cfg n)
                       else None) ∧
        ("all" ∈ names → barman_config.get_server cfg "all" = None →
         m !! "all" = Some None).
Proof.
  intros Hne Hgo. destruct (is_all_request args) eqn:Hall.
  - destruct (get_server_list_all cfg args skip_inactive skip_disabled
                on_error_stop suppress_error Hall Hgo)
      as (pre & m & -> & Hkept & Hval).
    by exists m.
  - destruct args as [[|first rest]|]; simpl in Hall; [done| |done].
    apply bool_decide_eq_false in Hall.
    destruct (get_server_list_named cfg first rest skip_inactive skip_disabled
                on_error_stop suppress_error Hall Hgo) as (pre & m & -> & Hk).
    exists m. split; [done|]. intros names [= <-]. split; [exact Hk|].
    intros Hin Hnone. rewrite Hk, decide_True by done. by rewrite Hnone.
Qed.

Lemma get_server_list_all_sentinel_witness :
  ∃ m,
    result (get_server_list sample.cfg (Some ["main"; "all"])
              false false true false) = Done m ∧
    m !! "main" = Some (Some {| config := sample.main |}) ∧
    m !! "all" = Some None ∧
    m !! "aux" = None.
Proof.
  destruct (get_server_list_all_sentinel sample.cfg (Some ["main"; "all"])
              false false true false) as (m & Hrun & Hm).
  - done.
  - left. reflexivity.
  - simpl in Hm. destruct (Hm _ eq_refl) as [Hk _].
    exists m. split; [exact Hrun|]. rewrite !Hk. done.
Defined.

(** ** The recover command *)

Lemma rejected_bind {A B} (m : cmd A) (f : A → cmd B) :
  harmless m → (∀ a, rejected (f a)) → rejected (m ≫= f).
Proof.
  intros [[a ->]|(Hres & Herr & Hrec)] Hf.
  - rewrite bind_done. simpl. specialize (Hf a). by destruct (f a).
  - destruct m as [tr [a| |e]]; simpl in *; try done.
Qed.

Lemma rejected_bind_l {A B} (m : cmd A) (f : A → cmd B) :
  rejected m → rejected (m ≫= f).
Proof.
  intros (Hres & Herr & Hrec).
  destruct m as [tr [a| |e]]; simpl in *; done.
Qed.

Lemma harmless_bind {A B} (m : cmd A) (f : A → cmd B) :
  harmless m → (∀ a, harmless (f a)) → harmless (m ≫= f).
Proof.
  intros [[a ->]|(Hres & Herr & Hrec)] Hf.
  - rewrite bind_done. simpl. specialize (Hf a). by destruct (f a).
  - right. destruct m as [tr [a| |e]]; simpl in *; try done.
Qed.

Lemma harmless_pass : harmless pass.
Proof. left. by exists tt. Qed.

Lemma rejected_error_exit {A} (msg : string) :
  rejected (output.error msg ;; @output.close_and_exit A).
Proof.
  repeat split. intros call Hin.
  apply list_elem_of_singleton in Hin. discriminate.
Qed.

Lemma rejected_errors (A : Type) (msgs : list string) :
  msgs ≠ [] → rejected (EError <$> msgs, @Exited A).
Proof.
  intros Hne. split; [done|]. split.
  - by destruct msgs.
  - intros call (msg & ? & _)%list_elem_of_fmap. discriminate.
Qed.

Lemma rejected_errors_exit {A} (msgs : list string) :
  msgs ≠ [] →
  rejected (for_each output.error msgs ;; @output.close_and_exit A).
Proof.
  intros Hne. rewrite for_each_error. rewrite bind_done. simpl.
  rewrite app_nil_r. by apply rejected_errors.
Qed.

Lemma harmless_server_error_output (server : Server) :
  (disabled (config server) = true → msg_list (config server) ≠ []) →
  harmless (server_error_output server true true).
Proof.
  intros Hmsgs. unfold server_error_output.
  destruct (disabled (config server)) eqn:Hdis.
  - right. rewrite for_each_error. run_cmd. apply rejected_errors. auto.
  - destruct (active (config server)); run_cmd.
    + apply harmless_pass.
    + right. apply (rejected_error_exit (A:=unit)).
Qed.

Lemma harmless_get_server (cfg : barman_config.Config) (server_name : string) :
  (∀ conf, barman_config.get_server cfg server_name = Some conf →
           disabled conf = true → msg_list conf ≠ []) →
  harmless (get_server cfg server_name true).
Proof.
  intros Hwf. unfold get_server. case_bool_decide as Hgl.
  - right. by apply rejected_errors_exit.
  - destruct (barman_config.get_server cfg server_name) as [conf|] eqn:Hconf.
    + apply harmless_bind.
      * apply harmless_server_error_output. by apply Hwf.
      * intros []. left. eauto.
    + left. eauto.
Qed.

Lemma harmless_decode_tablespaces (rules : option (list string)) :
  harmless (decode_tablespaces rules).
Proof.
  destruct rules as [rules|]; [|left; eauto]. simpl.
  pose proof (decode_fold_spec rules ∅) as H.
  destruct (first_malformed rules) as [bad|].
  - right. rewrite H.
    apply (rejected_errors _ [invalid_rule_msg bad]). done.
  - destruct H as (m & -> & _). left. eauto.
Qed.

Lemma harmless_validate (valid_tablespaces items : list string) :
  harmless
    (for_each (λ item,
                 if bool_decide (item ∈ valid_tablespaces) then pass
                 else
                   output.error (invalid_name_msg item valid_tablespaces) ;;
                   output.close_and_exit) items).
Proof.
  induction items as [|item items IH]; cbn [for_each].
  - apply harmless_pass.
  - apply harmless_bind; [|intros _; exact IH].
    case_bool_decide; [apply harmless_pass|].
    right. apply rejected_error_exit.
Qed.

(** C1: a recover whose destination contains ':' is always rejected: the
    command exits with an error reported and [server.recover] is never
    called, whether or not the server is known, usable, or the backup
    identifier resolves to a completed backup.  (A disabled server is
    taken to carry at least one message, as the configuration provides.) *)
Theorem recover_rejects_remote_destination
    (cfg : barman_config.Config) (B : Backend)
    (dict_keys : gmap string string → list string)
    (args : RecoverArgs) :
  str_contains colon (destination_directory args) = true →
  (∀ conf, barman_config.get_server cfg (server_name args) = Some conf →
           disabled conf = true → msg_list conf ≠ []) →
  result (recover cfg B dict_keys args) = Exited
  ∧ output.error_occurred (trace (recover cfg B dict_keys args)) = true
  ∧ output.exit_status (trace (recover cfg B dict_keys args)) ≠ 0%Z
  ∧ ∀ call, ERecover call ∉ trace (recover cfg B dict_keys args).
Proof.
  intros Hdest Hwf.
  assert (rejected (recover cfg B dict_keys args)) as (Hres & Herr & Hrec).
  { unfold recover.
    apply rejected_bind; [by apply harmless_get_server|].
    intros [server|]; unfold is_unknown_server.
    - rewrite bind_ret, bind_pass.
      destruct (parse_backup_id B server (backup_id args)) as [b|].
      + apply rejected_bind.
        { case_bool_decide; [right; apply rejected_error_exit
                            |apply harmless_pass]. }
        intros _. apply rejected_bind; [apply harmless_decode_tablespaces|].
        intros tablespaces.
        apply rejected_bind; [apply harmless_validate|].
        intros _. rewrite Hdest.
        apply rejected_bind_l, rejected_error_exit.
      + apply rejected_bind_l, rejected_error_exit.
    - run_cmd.
      apply (rejected_errors _ ["Unknown server '" +:+ server_name args +:+ "'"]).
      done. }
  repeat split; try done.
  unfold output.exit_status. by rewrite Herr.
Qed.

Lemma recover_rejects_remote_destination_witness :
  str_contains colon "host:/path" = true ∧
  trace (recover sample.cfg sample.catalogue sample.keys
           (sample.args "20150101T000000" "host:/path"))
    = [EError destination_colon_msg] ∧
  result (recover sample.cfg sample.catalogue sample.keys
            (sample.args "latest" "host:/path")) = Exited ∧
  output.error_occurred
    (trace (recover sample.cfg sample.catalogue sample.keys
              (sample.args "latest" "host:/path"))) = true.
Proof.
  split; [reflexivity|]. split; [reflexivity|].
  destruct (recover_rejects_remote_destination sample.cfg sample.catalogue
              sample.keys (sample.args "latest" "host:/path"))
    as (Hres & Herr & _).
  - reflexivity.
  - intros conf [= <-]. discriminate.
  - by split.
Defined.

Lemma recover_unknown_backup
    (cfg : barman_config.Config) (B : Backend)
    (dict_keys : gmap string string → list string)
    (args : RecoverArgs) (tr : list event) (server : Server) :
  get_server cfg (server_name args) true = (tr, Done (Some server)) →
  (∀ b, parse_backup_id B server (backup_id args) = Some b →
        BackupInfo.status b ≠ BackupInfo.DONE) →
  recover cfg B dict_keys args =
    (tr ++ [EError (unknown_backup_msg (backup_id args) (server_name args))],
     Exited).
Proof.
  intros Hserver Hbackup. unfold recover. rewrite Hserver, bind_done.
  unfold is_unknown_server. rewrite bind_ret, bind_pass.
  destruct (parse_backup_id B server (backup_id args)) as [b|].
  - rewrite bool_decide_eq_true_2 by auto. reflexivity.
  - reflexivity.
Qed.

(** C10: when the backup identifier resolves to a record whose status is
    not DONE, recover emits the same "Unknown backup" error as for an
    identifier that does not resolve at all, and exits at that point: the
    outcome is the same whatever the relocation rules and the destination
    are. *)
Theorem recover_backup_not_done
    (cfg : barman_config.Config) (B : Backend)
    (dict_keys : gmap string string → list string)
    (args : RecoverArgs) (tr : list event) (server : Server)
    (b : BackupInfo.t) :
  get_server cfg (server_name args) true = (tr, Done (Some server)) →
  parse_backup_id B server (backup_id args) = Some b →
  BackupInfo.status b ≠ BackupInfo.DONE →
  recover cfg B dict_keys args =
    (tr ++ [EError ("Unknown backup '" +:+ backup_id args +:+
                    "' for server '" +:+ server_name args +:+ "'")],
     Exited)
  ∧ (∀ B', parse_backup_id B' server (backup_id args) = None →
           recover cfg B' dict_keys args = recover cfg B dict_keys args)
  ∧ (∀ rules destination,
       recover cfg B dict_keys (with_target args rules destination)
       = recover cfg B dict_keys args).
Proof.
  intros Hserver Hb Hstatus.
  assert (∀ b', parse_backup_id B server (backup_id args) = Some b' →
                BackupInfo.status b' ≠ BackupInfo.DONE) as Hnot_done.
  { intros b' Hb'. congruence. }
  rewrite (recover_unknown_backup cfg B dict_keys args tr server Hserver
             Hnot_done).
  split; [reflexivity|]. split.
  - intros B' Hnone.
    apply (recover_unknown_backup cfg B' dict_keys args tr server Hserver).
    intros b'. rewrite Hnone. discriminate.
  - intros rules destination.
    apply (recover_unknown_backup cfg B dict_keys
             (with_target args rules destination) tr server Hserver Hnot_done).
Qed.

Lemma recover_backup_not_done_witness :
  parse_backup_id sample.catalogue {| config := sample.main |} "latest"
    = Some sample.failed_backup ∧
  recover sample.cfg sample.catalogue sample.keys
    (sample.args "latest" "host:/path")
  = ([EError "Unknown backup 'latest' for server 'main'"], Exited).
Proof.
  split; [reflexivity|].
  apply (recover_backup_not_done sample.cfg sample.catalogue sample.keys
           (sample.args "latest" "host:/path") []
           {| config := sample.main |} sample.failed_backup).
  - reflexivity.
  - reflexivity.
  - discriminate.
Defined.

(** * Further properties of the command layer *)

(** ** Classification of a target that is not disabled *)

Lemma server_error_output_nonblocking
    (server : Server) (check_active : bool) :
  result (server_error_output server false check_active) = Done tt
  ∧ ∀ e, e ∈ trace (server_error_output server false check_active) →
         ∃ msg, e = EWarning msg.
Proof.
  unfold server_error_output.
  destruct (disabled (config server)).
  - rewrite for_each_warning. run_cmd. split; [done|].
    intros e (msg & -> & _)%list_elem_of_fmap. eauto.
  - destruct check_active, (active (config server)); run_cmd;
      (split; [done|]); intros e He.
    + by apply elem_of_nil in He.
    + apply list_elem_of_singleton in He. eauto.
    + by apply elem_of_nil in He.
    + by apply elem_of_nil in He.
Qed.

(** X1: with [is_error] off the classification never ends the command and
    never reports an error: it returns, having emitted warnings only. *)
Theorem server_error_output_warns_only
    (server : Server) (check_active : bool) :
  result (server_error_output server false check_active) = Done tt
  ∧ ∀ e, e ∈ trace (server_error_output server false check_active) →
         ∃ msg, e = EWarning msg.
Proof. apply server_error_output_nonblocking. Qed.

(** X2: with [is_error] on the classification returns exactly for the
    servers that are not disabled and, when the active check is requested,
    active; it is then silent.  For every other server it ends the
    command after at least one error, provided a disabled server carries
    a message. *)
Theorem server_error_output_blocking
    (server : Server) (check_active : bool) :
  (disabled (config server) = true → msg_list (config server) ≠ []) →
  if negb (disabled (config server))
     && (negb check_active || active (config server))
  then server_error_output server true check_active = ([], Done tt)
  else result (server_error_output server true check_active) = Exited
       ∧ output.error_occurred
           (trace (server_error_output server true check_active)) = true.
Proof.
  intros Hmsgs. unfold server_error_output.
  destruct (disabled (config server)) eqn:Hdis; simpl.
  - rewrite for_each_error. run_cmd. split; [done|].
    destruct (msg_list (config server)); [by destruct Hmsgs|done].
  - destruct check_active, (active (config server)); by run_cmd.
Qed.

Lemma server_error_output_blocking_witness :
  server_error_output {| config := sample.main |} true true = ([], Done tt)
  ∧ result (server_error_output {| config := sample.aux |} true false)
    = Exited.
Proof.
  split.
  - apply (server_error_output_blocking {| config := sample.main |} true).
    discriminate.
  - apply (server_error_output_blocking {| config := sample.aux |} false).
    discriminate.
Defined.

(** X3: a server that is inactive but not disabled gets the single message
    'Not active server: <name>' when the active check is requested, as an
    error followed by the exit or as a warning; without the active check
    nothing is emitted and the command goes on. *)
Theorem server_error_output_inactive (server : Server) (is_error : bool) :
  disabled (config server) = false →
  active (config server) = false →
  server_error_output server is_error true =
    (if is_error
     then ([EError ("Not active server: " +:+ name (config server))], Exited)
     else ([EWarning ("Not active server: " +:+ name (config server))],
           Done tt))
  ∧ server_error_output server is_error false = ([], Done tt).
Proof.
  intros Hdis Hact. unfold server_error_output. rewrite Hdis, Hact.
  destruct is_error; by run_cmd.
Qed.

Lemma server_error_output_inactive_witness :
  server_error_output
    {| config := {| name := "standby"; active := false; disabled := false;
                    msg_list := []; basebackup_retry_times := None;
                    basebackup_retry_sleep := None |} |} true true
  = ([EError "Not active server: standby"], Exited).
Proof.
  apply (server_error_output_inactive
           {| config := {| name := "standby"; active := false;
                           disabled := false; msg_list := [];
                           basebackup_retry_times := None;
                           basebackup_retry_sleep := None |} |} true);
    reflexivity.
Defined.

(** ** Resolution of a single server *)

(** X4: for a single-server command the global conflicts come first: when
    there is any, each is emitted once as an error, in order, and the
    command exits, whatever the server name (known or not) and whatever
    the [dangerous] flag. *)
Theorem get_server_global_conflict
    (cfg : barman_config.Config) (server_name : string) (dangerous : bool) :
  barman_config.servers_msg_list cfg ≠ [] →
  get_server cfg server_name dangerous
    = (EError <$> barman_config.servers_msg_list cfg, Exited).
Proof.
  intros Hgl. unfold get_server.
  rewrite bool_decide_eq_true_2 by done.
  rewrite for_each_error. by run_cmd.
Qed.

Lemma get_server_global_conflict_witness :
  get_server sample.clashing "nosuch" false
    = ([EError "conflict A"; EError "conflict B"], Exited).
Proof.
  apply (get_server_global_conflict sample.clashing "nosuch" false).
  discriminate.
Defined.

(** X5: a dangerous command only ever gets a server it may act on: when
    [get_server] returns a server with [dangerous] set, nothing was
    emitted, there is no global conflict, the server wraps the
    configuration found under the requested name, and it is neither
    disabled nor inactive. *)
Theorem get_server_dangerous_usable
    (cfg : barman_config.Config) (server_name : string)
    (tr : list event) (server : Server) :
  get_server cfg server_name true = (tr, Done (Some server)) →
  tr = []
  ∧ barman_config.servers_msg_list cfg = []
  ∧ barman_config.get_server cfg server_name = Some (config server)
  ∧ disabled (config server) = false
  ∧ active (config server) = true.
Proof.
  unfold get_server. case_bool_decide as Hgl.
  - rewrite for_each_error. run_cmd. discriminate.
  - destruct (barman_config.get_server cfg server_name) as [conf|];
      [|run_cmd; discriminate].
    unfold server_error_output. simpl.
    destruct (disabled conf) eqn:Hdis.
    + rewrite for_each_error. run_cmd. discriminate.
    + destruct (active conf) eqn:Hact; run_cmd; [|discriminate].
      intros [= <- <-]. done.
Qed.

Lemma get_server_dangerous_usable_witness :
  get_server sample.cfg "main" true
    = ([], Done (Some {| config := sample.main |}))
  ∧ active sample.main = true.
Proof.
  split; [reflexivity|].
  apply (get_server_dangerous_usable sample.cfg "main" []
           {| config := sample.main |}).
  reflexivity.
Defined.

(** X6: without global conflict a command that is not dangerous always
    gets an answer: [None], silently, for a name without configuration,
    and otherwise the server of that name, after warnings only, be it
    disabled or inactive. *)
Theorem get_server_not_dangerous
    (cfg : barman_config.Config) (server_name : string) :
  barman_config.servers_msg_list cfg = [] →
  result (get_server cfg server_name false)
    = Done (Build_Server <$> barman_config.get_server cfg server_name)
  ∧ (barman_config.get_server cfg server_name = None →
     trace (get_server cfg server_name false) = [])
  ∧ ∀ e, e ∈ trace (get_server cfg server_name false) →
         ∃ msg, e = EWarning msg.
Proof.
  intros Hgl. unfold get_server. rewrite Hgl. simpl.
  destruct (barman_config.get_server cfg server_name) as [conf|];
    [|by repeat split; try done; intros e He%elem_of_nil].
  destruct (server_error_output_nonblocking {| config := conf |} true)
    as [Hres Hwarn].
  destruct (server_error_output {| config := conf |} false true)
    as [tr r] eqn:Hrun.
  unfold result, trace in *. simpl in *. subst r. run_cmd.
  split; [done|]. split; [done|]. exact Hwarn.
Qed.

Lemma get_server_not_dangerous_witness :
  get_server sample.cfg "aux" false
    = ([EWarning "bad path"; EWarning "bad conninfo"],
       Done (Some {| config := sample.aux |}))
  ∧ result (get_server sample.cfg "nosuch" false) = Done None.
Proof.
  split; [reflexivity|].
  apply (get_server_not_dangerous sample.cfg "nosuch"). reflexivity.
Defined.

(** ** Resolution of a set of servers *)

Lemma all_servers_step_run (skip_inactive skip_disabled : bool)
    (d : gmap string (option Server)) (conf : ServerConfig) :
  all_servers_step skip_inactive skip_disabled d conf =
    if kept skip_inactive skip_disabled conf
    then ([], Done (<[name conf := Some {| config := conf |}]> d))
    else ([skip_info skip_inactive conf], Done d).
Proof.
  unfold all_servers_step, kept, skip_info.
  destruct (skip_inactive && negb (active conf));
    [|destruct (skip_disabled && disabled conf)]; reflexivity.
Qed.

Lemma all_fold_trace (skip_inactive skip_disabled : bool)
    (confs : list ServerConfig) (d : gmap string (option Server)) :
  trace (for_fold (all_servers_step skip_inactive skip_disabled) d confs)
  = skip_info skip_inactive
      <$> filter (λ conf, kept skip_inactive skip_disabled conf = false) confs.
Proof.
  revert d. induction confs as [|conf confs IH]; intros d; [done|].
  cbn [for_fold]. rewrite all_servers_step_run, filter_cons.
  destruct (kept skip_inactive skip_disabled conf) eqn:Hk.
  - rewrite bind_done, decide_False by done. apply IH.
  - rewrite bind_done, decide_True by done.
    unfold trace. cbn [fst]. rewrite fmap_cons. f_equal. apply IH.
Qed.

Lemma get_server_list_all_run
    (cfg : barman_config.Config) (args : option (list string))
    (skip_inactive skip_disabled on_error_stop suppress_error : bool) :
  is_all_request args = true →
  barman_config.servers_msg_list cfg = [] ∨ on_error_stop = false →
  get_server_list cfg args skip_inactive skip_disabled
    on_error_stop suppress_error
  = (conflict_errors cfg suppress_error
       ++ trace (for_fold (all_servers_step skip_inactive skip_disabled)
                   ∅ (barman_config.servers cfg)),
     result (for_fold (all_servers_step skip_inactive skip_disabled)
               ∅ (barman_config.servers cfg))).
Proof.
  intros Hall Hgo. unfold get_server_list.
  rewrite (global_check_continue cfg on_error_stop suppress_error _ Hgo).
  destruct args as [[|first rest]|]; simpl in Hall; [done| |done].
  apply bool_decide_eq_true in Hall as ->. done.
Qed.

Lemma NoDup_fmap_inj {A B} (f : A → B) (l : list A) (x y : A) :
  NoDup (f <$> l) → x ∈ l → y ∈ l → f x = f y → x = y.
Proof.
  induction l as [|a l IH]; [by intros _ ?%elem_of_nil|].
  rewrite fmap_cons, NoDup_cons.
  intros [Ha Hl] [->|Hx]%elem_of_cons [->|Hy]%elem_of_cons Hf; auto.
  - exfalso. apply Ha. rewrite Hf. by apply list_elem_of_fmap_2.
  - exfalso. apply Ha. rewrite <- Hf. by apply list_elem_of_fmap_2.
Qed.

Lemma filter_all {A} (P : A → Prop) `{∀ x, Decision (P x)} (l : list A) :
  (∀ x, P x) → filter P l = l.
Proof.
  intros HP. induction l as [|x l IH]; [done|].
  rewrite filter_cons_True by done. by rewrite IH.
Qed.

(** X7: an 'all' request that the global check lets through returns the
    configured servers that pass the skip filters: the keys of the mapping
    are exactly their names, and when the configured names are distinct
    each of them is mapped to the Server of its own configuration.  With
    both filters off the keys are the names of all configured servers. *)
Theorem get_server_list_all_content
    (cfg : barman_config.Config) (args : option (list string))
    (skip_inactive skip_disabled on_error_stop suppress_error : bool) :
  is_all_request args = true →
  barman_config.servers_msg_list cfg = [] ∨ on_error_stop = false →
  ∃ m,
    result (get_server_list cfg args skip_inactive skip_disabled
              on_error_stop suppress_error) = Done m ∧
    dom m = list_to_set
              (name <$> filter (λ conf, kept skip_inactive skip_disabled conf
                                        = true)
                          (barman_config.servers cfg)) ∧
    (NoDup (name <$> barman_config.servers cfg) →
     ∀ conf, conf ∈ barman_config.servers cfg →
             kept skip_inactive skip_disabled conf = true →
             m !! name conf = Some (Some {| config := conf |})) ∧
    (skip_inactive = false → skip_disabled = false →
     dom m = list_to_set (name <$> barman_config.servers cfg)).
Proof.
  intros Hall Hgo.
  destruct (get_server_list_all cfg args skip_inactive skip_disabled
              on_error_stop suppress_error Hall Hgo)
    as (pre & m & -> & Hkept & Hval).
  exists m. split; [done|].
  assert (dom m = list_to_set
            (name <$> filter (λ conf, kept skip_inactive skip_disabled conf
                                      = true)
                        (barman_config.servers cfg))) as Hdom.
  { apply set_eq. intros n.
    rewrite elem_of_dom, elem_of_list_to_set, list_elem_of_fmap. split.
    - intros [v Hv]. destruct (Hval n v Hv) as (conf & Hin & <- & Hk & _).
      exists conf. split; [done|]. by apply list_elem_of_filter.
    - intros (conf & -> & [Hk Hin]%list_elem_of_filter). by apply Hkept. }
  split; [exact Hdom|]. split.
  - intros Hnodup conf Hin Hk.
    destruct (Hkept conf Hin Hk) as [v Hv]. rewrite Hv.
    destruct (Hval _ v Hv) as (conf' & Hin' & Hname & _ & ->).
    by rewrite (NoDup_fmap_inj name _ conf' conf Hnodup Hin' Hin Hname).
  - intros -> ->. rewrite Hdom. f_equal. f_equal.
    apply filter_all. done.
Qed.

Lemma get_server_list_all_content_witness :
  ∃ m,
    result (get_server_list sample.cfg (Some ["all"; "ignored"])
              true false true false) = Done m ∧
    dom m = {[ "main" ]} ∧
    m !! "main" = Some (Some {| config := sample.main |}).
Proof.
  destruct (get_server_list_all_content sample.cfg (Some ["all"; "ignored"])
              true false true false) as (m & Hrun & Hdom & Hval & _).
  - reflexivity.
  - left. reflexivity.
  - exists m. split; [exact Hrun|]. split.
    + rewrite Hdom. vm_compute. reflexivity.
    + assert (NoDup (name <$> barman_config.servers sample.cfg)) as Hnodup.
      { apply NoDup_cons. split; [|apply NoDup_singleton].
        intros Hin%list_elem_of_singleton. discriminate. }
      apply (Hval Hnodup sample.main);
        [apply elem_of_cons; by left|reflexivity].
Defined.

(** X8: an 'all' request that the global check lets through emits, after
    the conflict errors if any, one info message per configured server
    that the skip filters leave out, in configuration order, and nothing
    else; a server that is both inactive and disabled is announced as
    inactive when both filters are on. *)
Theorem get_server_list_all_skips
    (cfg : barman_config.Config) (args : option (list string))
    (skip_inactive skip_disabled on_error_stop suppress_error : bool) :
  is_all_request args = true →
  barman_config.servers_msg_list cfg = [] ∨ on_error_stop = false →
  trace (get_server_list cfg args skip_inactive skip_disabled
           on_error_stop suppress_error)
  = conflict_errors cfg suppress_error
    ++ (skip_info skip_inactive
          <$> filter (λ conf, kept skip_inactive skip_disabled conf = false)
                (barman_config.servers cfg)).
Proof.
  intros Hall Hgo.
  rewrite (get_server_list_all_run cfg args skip_inactive skip_disabled
             on_error_stop suppress_error Hall Hgo).
  unfold trace at 1. cbn [fst]. by rewrite all_fold_trace.
Qed.

Lemma get_server_list_all_skips_witness :
  trace (get_server_list sample.cfg None true true true false)
  = [EInfo "Skipping inactive server 'aux'"].
Proof.
  apply (get_server_list_all_skips sample.cfg None true true true false).
  - reflexivity.
  - left. reflexivity.
Defined.

Lemma get_server_list_named_run
    (cfg : barman_config.Config) (first : string) (rest : list string)
    (skip_inactive skip_disabled on_error_stop suppress_error : bool) :
  first ≠ "all" →
  barman_config.servers_msg_list cfg = [] ∨ on_error_stop = false →
  get_server_list cfg (Some (first :: rest)) skip_inactive skip_disabled
    on_error_stop suppress_error
  = (conflict_errors cfg suppress_error,
     result (for_fold (named_servers_step cfg) ∅ (first :: rest))).
Proof.
  intros Hfirst Hgo. unfold get_server_list.
  rewrite (global_check_continue cfg on_error_stop suppress_error _ Hgo).
  destruct (String.eqb_spec first "all") as [?|_]; [done|].
  destruct (named_fold_spec cfg (first :: rest) ∅) as (m & -> & _).
  unfold conflict_errors. cbn [fst snd result]. by rewrite app_nil_r.
Qed.

(** X9: the skip filters only apply to 'all'.  For an explicit list of
    names the two flags change nothing, so a server that is inactive or
    disabled is resolved when it is named; and apart from the conflict
    errors of the global check nothing is emitted. *)
Theorem get_server_list_named_ignores_skips
    (cfg : barman_config.Config) (first : string) (rest : list string)
    (skip_inactive skip_disabled on_error_stop suppress_error : bool) :
  first ≠ "all" →
  get_server_list cfg (Some (first :: rest)) skip_inactive skip_disabled
    on_error_stop suppress_error
  = get_server_list cfg (Some (first :: rest)) false false
      on_error_stop suppress_error
  ∧ (barman_config.servers_msg_list cfg = [] ∨ on_error_stop = false →
     trace (get_server_list cfg (Some (first :: rest)) skip_inactive
              skip_disabled on_error_stop suppress_error)
     = conflict_errors cfg suppress_error).
Proof.
  intros Hfirst. split.
  - unfold get_server_list.
    by destruct (String.eqb_spec first "all") as [?|_].
  - intros Hgo.
    by rewrite (get_server_list_named_run cfg first rest skip_inactive
                  skip_disabled on_error_stop suppress_error Hfirst Hgo).
Qed.

Lemma get_server_list_named_ignores_skips_witness :
  ∃ m,
    get_server_list sample.cfg (Some ["aux"]) true true true false
      = ([], Done m)
    ∧ m !! "aux" = Some (Some {| config := sample.aux |}).
Proof.
  destruct (get_server_list_named_ignores_skips sample.cfg "aux" []
              true true true false) as [-> _].
  - discriminate.
  - eexists. split; reflexivity.
Defined.

(** X10: with [on_error_stop] off the global conflicts never end the
    resolution: the outcome is the one of the same configuration without
    conflicts, and the output is the same one preceded by the conflict
    errors (by nothing when [suppress_error] is on). *)
Theorem get_server_list_continue_on_error
    (cfg : barman_config.Config) (args : option (list string))
    (skip_inactive skip_disabled suppress_error : bool) :
  get_server_list cfg args skip_inactive skip_disabled false suppress_error
  = (conflict_errors cfg suppress_error
       ++ trace (get_server_list (without_conflicts cfg) args
                   skip_inactive skip_disabled true false),
     result (get_server_list (without_conflicts cfg) args
               skip_inactive skip_disabled true false)).
Proof.
  unfold get_server_list at 1.
  rewrite (global_check_continue cfg false suppress_error _
             (or_intror eq_refl)).
  unfold get_server_list.
  rewrite (global_check_continue (without_conflicts cfg) true false _
             (or_introl eq_refl)).
  reflexivity.
Qed.

(** ** The recover command, step by step *)

Lemma get_server_dangerous_run
    (cfg : barman_config.Config) (server_name : string) :
  get_server cfg server_name true =
    if bool_decide (barman_config.servers_msg_list cfg ≠ []) then
      (EError <$> barman_config.servers_msg_list cfg, Exited)
    else
      match barman_config.get_server cfg server_name with
      | None => ([], Done None)
      | Some conf =>
          if disabled conf then (EError <$> msg_list conf, Exited)
          else if active conf then ([], Done (Some {| config := conf |}))
          else ([EError ("Not active server: " +:+ name conf)], Exited)
      end.
Proof.
  unfold get_server. case_bool_decide as Hgl.
  - rewrite for_each_error. by run_cmd.
  - destruct (barman_config.get_server cfg server_name) as [conf|]; [|done].
    unfold server_error_output. simpl.
    destruct (disabled conf).
    + rewrite for_each_error. by run_cmd.
    + destruct (active conf); by run_cmd.
Qed.

Lemma validate_run (valid_tablespaces items : list string) :
  for_each (λ item,
              if bool_decide (item ∈ valid_tablespaces) then pass
              else
                output.error (invalid_name_msg item valid_tablespaces) ;;
                output.close_and_exit) items
  = match first_invalid valid_tablespaces items with
    | Some item =>
        ([EError (invalid_name_msg item valid_tablespaces)], Exited)
    | None => ([], Done tt)
    end.
Proof.
  induction items as [|item items IH]; [done|].
  cbn [for_each]. unfold first_invalid in *. cbn [List.find].
  case_bool_decide; cbn [negb].
  - by rewrite bind_pass.
  - by run_cmd.
Qed.

Lemma decode_tablespaces_cases (rules : option (list string)) :
  (∃ m, decode_tablespaces rules = ([], Done m))
  ∨ (∃ bad, decode_tablespaces rules
            = ([EError (invalid_rule_msg bad)], Exited)).
Proof.
  destruct rules as [rules|]; [|left; by eexists].
  pose proof (decode_fold_spec rules ∅) as H. simpl.
  destruct (first_malformed rules) as [bad|].
  - right. eauto.
  - destruct H as (m & -> & _). left. eauto.
Qed.

Lemma recover_no_server
    (cfg : barman_config.Config) (B : Backend)
    (dict_keys : gmap string string → list string) (args : RecoverArgs)
    (tr : list event) :
  get_server cfg (server_name args) true = (tr, Done None) →
  recover cfg B dict_keys args
    = (tr ++ [EError ("Unknown server '" +:+ server_name args +:+ "'")],
       Exited).
Proof. intros Hs. unfold recover. rewrite Hs. by run_cmd. Qed.

Lemma recover_stopped_early
    (cfg : barman_config.Config) (B : Backend)
    (dict_keys : gmap string string → list string) (args : RecoverArgs)
    (tr : list event) :
  get_server cfg (server_name args) true = (tr, Exited) →
  recover cfg B dict_keys args = (tr, Exited).
Proof. intros Hs. unfold recover. by rewrite Hs. Qed.

Lemma recover_malformed_rule
    (cfg : barman_config.Config) (B : Backend)
    (dict_keys : gmap string string → list string) (args : RecoverArgs)
    (server : Server) (b : BackupInfo.t) (tr : list event) :
  get_server cfg (server_name args) true = ([], Done (Some server)) →
  parse_backup_id B server (backup_id args) = Some b →
  BackupInfo.status b = BackupInfo.DONE →
  decode_tablespaces (tablespace args) = (tr, Exited) →
  recover cfg B dict_keys args = (tr, Exited).
Proof.
  intros Hs Hb Hdone Hdec. unfold recover. rewrite Hs, bind_done.
  unfold is_unknown_server. rewrite bind_ret, bind_pass, Hb.
  rewrite bool_decide_eq_false_2 by (by intros ?).
  rewrite bind_pass, Hdec. reflexivity.
Qed.

Lemma recover_decoded
    (cfg : barman_config.Config) (B : Backend)
    (dict_keys : gmap string string → list string) (args : RecoverArgs)
    (server : Server) (b : BackupInfo.t) (m : gmap string string) :
  get_server cfg (server_name args) true = ([], Done (Some server)) →
  parse_backup_id B server (backup_id args) = Some b →
  BackupInfo.status b = BackupInfo.DONE →
  decode_tablespaces (tablespace args) = ([], Done m) →
  recover cfg B dict_keys args =
    match first_invalid (valid_names b) (dict_keys m) with
    | Some item => ([EError (invalid_name_msg item (valid_names b))], Exited)
    | None =>
        if str_contains colon (destination_directory args)
        then ([EError destination_colon_msg], Exited)
        else ([ERecover (recover_call args server b m)], Exited)
    end.
Proof.
  intros Hs Hb Hdone Hdec. unfold recover. rewrite Hs, bind_done.
  unfold is_unknown_server. rewrite bind_ret, bind_pass, Hb.
  rewrite bool_decide_eq_false_2 by (by intros ?).
  rewrite bind_pass, Hdec, bind_done.
  cbn [fst snd app].
  change (match BackupInfo.tablespaces b with
          | Some ((_ :: _) as l) => ts_name <$> l
          | _ => []
          end) with (valid_names b).
  rewrite validate_run.
  destruct (first_invalid (valid_names b) (dict_keys m)); [done|].
  rewrite bind_done. cbn [fst snd app].
  destruct (str_contains colon (destination_directory args)); by run_cmd.
Qed.

Lemma first_invalid_None (valid_tablespaces items : list string) :
  first_invalid valid_tablespaces items = None ↔
  Forall (λ item, item ∈ valid_tablespaces) items.
Proof.
  unfold first_invalid. induction items as [|item items IH]; simpl.
  - split; [constructor|done].
  - case_bool_decide as Hin; simpl.
    + rewrite IH. split; [by constructor|].
      intros H. by apply Forall_cons_1 in H as [_ ?].
    + split; [done|]. intros H. by apply Forall_cons_1 in H as [? _].
Qed.

Lemma no_recover_in_errors (msgs : list string) (call : RecoverCall) :
  ERecover call ∉ EError <$> msgs.
Proof. intros (msg & ? & _)%list_elem_of_fmap. discriminate. Qed.

(** Every run of [recover] either stops without calling
    [server.recover], or passes all the checks and makes the call as its
    only action. *)
Lemma recover_outcome
    (cfg : barman_config.Config) (B : Backend)
    (dict_keys : gmap string string → list string) (args : RecoverArgs) :
  (∃ tr, recover cfg B dict_keys args = (tr, Exited) ∧
         ∀ call, ERecover call ∉ tr)
  ∨ (∃ server b m,
       barman_config.servers_msg_list cfg = [] ∧
       barman_config.get_server cfg (server_name args)
         = Some (config server) ∧
       disabled (config server) = false ∧
       active (config server) = true ∧
       parse_backup_id B server (backup_id args) = Some b ∧
       BackupInfo.status b = BackupInfo.DONE ∧
       decode_tablespaces (tablespace args) = ([], Done m) ∧
       first_invalid (valid_names b) (dict_keys m) = None ∧
       str_contains colon (destination_directory args) = false ∧
       recover cfg B dict_keys args
         = ([ERecover (recover_call args server b m)], Exited)).
Proof.
  pose proof (get_server_dangerous_run cfg (server_name args)) as Hs.
  case_bool_decide as Hgl.
  { left. eexists. split; [exact (recover_stopped_early _ _ _ _ _ Hs)|].
    intros call. apply no_recover_in_errors. }
  destruct (barman_config.get_server cfg (server_name args))
    as [conf|] eqn:Hconf.
  2: { left. eexists. split; [exact (recover_no_server _ _ _ _ _ Hs)|].
       intros call Hin. apply list_elem_of_singleton in Hin. discriminate. }
  destruct (disabled conf) eqn:Hdis.
  { left. eexists. split; [exact (recover_stopped_early _ _ _ _ _ Hs)|].
    intros call. apply no_recover_in_errors. }
  destruct (active conf) eqn:Hact.
  2: { left. eexists. split; [exact (recover_stopped_early _ _ _ _ _ Hs)|].
       intros call Hin. apply list_elem_of_singleton in Hin. discriminate. }
  set (server := {| config := conf |}) in *.
  destruct (parse_backup_id B server (backup_id args)) as [b|] eqn:Hb.
  2: { left. eexists. split.
       - apply (recover_unknown_backup cfg B dict_keys args [] server Hs).
         intros b. rewrite Hb. discriminate.
       - intros call Hin. apply list_elem_of_singleton in Hin.
         discriminate. }
  destruct (decide (BackupInfo.status b = BackupInfo.DONE)) as [Hdone|Hnot].
  2: { left. eexists. split.
       - apply (recover_unknown_backup cfg B dict_keys args [] server Hs).
         intros b'. rewrite Hb. by intros [= <-].
       - intros call Hin. apply list_elem_of_singleton in Hin.
         discriminate. }
  destruct (decode_tablespaces_cases (tablespace args))
    as [[m Hdec]|[bad Hdec]].
  2: { left. eexists. split.
       - by apply (recover_malformed_rule cfg B dict_keys args server b).
       - intros call Hin. apply list_elem_of_singleton in Hin.
         discriminate. }
  pose proof (recover_decoded cfg B dict_keys args server b m
                Hs Hb Hdone Hdec) as Hrun.
  destruct (first_invalid (valid_names b) (dict_keys m)) as [item|] eqn:Hinv.
  { left. eexists. split; [exact Hrun|].
    intros call Hin. apply list_elem_of_singleton in Hin. discriminate. }
  destruct (str_contains colon (destination_directory args)) eqn:Hdest.
  { left. eexists. split; [exact Hrun|].
    intros call Hin. apply list_elem_of_singleton in Hin. discriminate. }
  right. by exists server, b, m.
Qed.

(** X11: [recover] never returns to its caller and lets no exception
    escape: on every input it ends through [close_and_exit]. *)
Theorem recover_always_exits
    (cfg : barman_config.Config) (B : Backend)
    (dict_keys : gmap string string → list string) (args : RecoverArgs) :
  result (recover cfg B dict_keys args) = Exited.
Proof.
  destruct (recover_outcome cfg B dict_keys args)
    as [(tr & -> & _)|(server & b & m & Hrest)]; [done|].
  by rewrite (proj2 (proj2 (proj2 (proj2 (proj2 (proj2 (proj2
               (proj2 (proj2 Hrest))))))))).
Qed.

(** X12: [server.recover] is only called after every check has passed.
    If a run of [recover] contains the call, the call is all the run
    emitted (no error, one call); there is no global conflict; the server
    is the configured one of that name, neither disabled nor inactive; the
    backup is the one the identifier resolves to and its status is DONE;
    the destination is the one given and has no ':'; the relocation map
    is the decoded rule list, and every key the validation loop visited is
    a tablespace of the backup. *)
Theorem recover_call_guarded
    (cfg : barman_config.Config) (B : Backend)
    (dict_keys : gmap string string → list string) (args : RecoverArgs)
    (call : RecoverCall) :
  ERecover call ∈ trace (recover cfg B dict_keys args) →
  trace (recover cfg B dict_keys args) = [ERecover call]
  ∧ barman_config.servers_msg_list cfg = []
  ∧ (∃ server,
       barman_config.get_server cfg (server_name args)
         = Some (config server) ∧
       disabled (config server) = false ∧
       active (config server) = true ∧
       parse_backup_id B server (backup_id args) = Some (rc_backup call) ∧
       call = recover_call args server (rc_backup call) (rc_tablespaces call))
  ∧ BackupInfo.status (rc_backup call) = BackupInfo.DONE
  ∧ rc_dest call = destination_directory args
  ∧ str_contains colon (rc_dest call) = false
  ∧ decode_tablespaces (tablespace args) = ([], Done (rc_tablespaces call))
  ∧ Forall (λ item, item ∈ valid_names (rc_backup call))
      (dict_keys (rc_tablespaces call)).
Proof.
  intros Hin.
  destruct (recover_outcome cfg B dict_keys args)
    as [(tr & Hrun & Hno)|(server & b & m & Hgl & Hconf & Hdis & Hact & Hb
                           & Hdone & Hdec & Hinv & Hdest & Hrun)];
    rewrite Hrun in Hin |- *; unfold trace in *; cbn [fst] in *.
  - by apply Hno in Hin.
  - apply list_elem_of_singleton in Hin. injection Hin as ->.
    cbn [recover_call rc_backup rc_dest rc_tablespaces].
    split; [done|]. split; [done|]. split; [by exists server|].
    split; [done|]. split; [done|]. split; [done|]. split; [done|].
    by apply first_invalid_None.
Qed.

Lemma recover_call_guarded_witness :
  ∃ call,
    trace (recover sample.cfg sample.catalogue sample.keys
             (sample.args "oldest" "/srv/restore")) = [ERecover call]
    ∧ rc_backup call = sample.done_backup
    ∧ rc_tablespaces call !! "a" = Some "/x".
Proof.
  exists (recover_call (sample.args "oldest" "/srv/restore")
            {| config := sample.main |} sample.done_backup {[ "a" := "/x" ]}).
  split; [|split; reflexivity].
  apply (recover_call_guarded sample.cfg sample.catalogue sample.keys
           (sample.args "oldest" "/srv/restore")).
  apply list_elem_of_singleton. reflexivity.
Defined.

Lemma get_server_usable
    (cfg : barman_config.Config) (server_name : string)
    (conf : ServerConfig) :
  barman_config.servers_msg_list cfg = [] →
  barman_config.get_server cfg server_name = Some conf →
  disabled conf = false →
  active conf = true →
  get_server cfg server_name true = ([], Done (Some {| config := conf |})).
Proof.
  intros Hgl Hconf Hdis Hact.
  rewrite get_server_dangerous_run, Hgl, Hconf, Hdis, Hact. done.
Qed.

(** X13: when nothing is wrong (no global conflict, a configured server
    that is neither disabled nor inactive, an identifier resolving to a
    DONE backup, rules that decode, keys that are tablespaces of the
    backup, a destination without ':') [recover] emits nothing but the
    one call to [server.recover], with that backup, destination and
    relocation map, and then exits.  The server it is called on keeps its
    name; its two retry settings are the command-line values where given
    and the configured ones otherwise. *)
Theorem recover_success
    (cfg : barman_config.Config) (B : Backend)
    (dict_keys : gmap string string → list string) (args : RecoverArgs)
    (conf : ServerConfig) (b : BackupInfo.t) (m : gmap string string) :
  barman_config.servers_msg_list cfg = [] →
  barman_config.get_server cfg (server_name args) = Some conf →
  disabled conf = false →
  active conf = true →
  parse_backup_id B {| config := conf |} (backup_id args) = Some b →
  BackupInfo.status b = BackupInfo.DONE →
  decode_tablespaces (tablespace args) = ([], Done m) →
  Forall (λ item, item ∈ valid_names b) (dict_keys m) →
  str_contains colon (destination_directory args) = false →
  ∃ call,
    recover cfg B dict_keys args = ([ERecover call], Exited)
    ∧ rc_backup call = b
    ∧ rc_dest call = destination_directory args
    ∧ rc_tablespaces call = m
    ∧ name (config (rc_server call)) = name conf
    ∧ basebackup_retry_times (config (rc_server call))
      = match retry_times args with
        | Some v => Some v
        | None => basebackup_retry_times conf
        end
    ∧ basebackup_retry_sleep (config (rc_server call))
      = match retry_sleep args with
        | Some v => Some v
        | None => basebackup_retry_sleep conf
        end.
Proof.
  intros Hgl Hconf Hdis Hact Hb Hdone Hdec Hvalid Hdest.
  exists (recover_call args {| config := conf |} b m).
  rewrite (recover_decoded cfg B dict_keys args {| config := conf |} b m
             (get_server_usable cfg _ conf Hgl Hconf Hdis Hact)
             Hb Hdone Hdec).
  apply first_invalid_None in Hvalid. rewrite Hvalid, Hdest.
  split; [done|]. cbn [recover_call rc_backup rc_dest rc_tablespaces
                      rc_server config].
  repeat split; destruct (retry_times args), (retry_sleep args); done.
Qed.

Lemma recover_success_witness :
  ∃ call,
    recover sample.cfg sample.catalogue sample.keys
      (sample.args "first" "/srv/restore") = ([ERecover call], Exited)
    ∧ rc_backup call = sample.done_backup
    ∧ basebackup_retry_times (config (rc_server call)) = Some 3%Z.
Proof.
  destruct (recover_success sample.cfg sample.catalogue sample.keys
              (sample.args "first" "/srv/restore")
              sample.main sample.done_backup {[ "a" := "/x" ]})
    as (call & Hrun & Hb & _ & _ & _ & Htimes & _);
    try reflexivity.
  - repeat constructor.
  - exists call. by rewrite Htimes.
Defined.

Lemma first_invalid_app (valid_tablespaces pre post : list string)
    (item : string) :
  Forall (λ x, x ∈ valid_tablespaces) pre →
  item ∉ valid_tablespaces →
  first_invalid valid_tablespaces (pre ++ item :: post) = Some item.
Proof.
  intros Hpre Hitem. unfold first_invalid.
  induction Hpre as [|x pre Hx _ IH]; simpl.
  - by rewrite bool_decide_eq_false_2.
  - by rewrite bool_decide_eq_true_2.
Qed.

(** X14: a relocation rule for a name that is not a tablespace of the
    backup stops [recover] before the destination is looked at: the
    first such key met by the validation loop is reported in one error
    that lists the tablespaces of the backup, the command exits, and
    [server.recover] is not called.  For a backup without tablespaces
    that list is empty, so any rule is refused. *)
Theorem recover_invalid_tablespace_name
    (cfg : barman_config.Config) (B : Backend)
    (dict_keys : gmap string string → list string) (args : RecoverArgs)
    (server : Server) (b : BackupInfo.t) (m : gmap string string)
    (pre post : list string) (item : string) :
  get_server cfg (server_name args) true = ([], Done (Some server)) →
  parse_backup_id B server (backup_id args) = Some b →
  BackupInfo.status b = BackupInfo.DONE →
  decode_tablespaces (tablespace args) = ([], Done m) →
  dict_keys m = pre ++ item :: post →
  Forall (λ x, x ∈ valid_names b) pre →
  item ∉ valid_names b →
  recover cfg B dict_keys args =
    ([EError ("Invalid tablespace name '" +:+ item +:+ "'" +:+ nl +:+
              "HINT: Please use any of the following tablespaces: " +:+
              str_join ", " (valid_names b))],
     Exited)
  ∧ (BackupInfo.tablespaces b = None ∨ BackupInfo.tablespaces b = Some [] →
     valid_names b = []).
Proof.
  intros Hs Hb Hdone Hdec Hkeys Hpre Hitem. split.
  - rewrite (recover_decoded cfg B dict_keys args server b m Hs Hb Hdone Hdec).
    by rewrite Hkeys, (first_invalid_app _ pre post item Hpre Hitem).
  - unfold valid_names. by intros [-> | ->].
Qed.

Lemma recover_invalid_tablespace_name_witness :
  recover sample.cfg sample.catalogue sample.keys
    {| server_name := "main"; backup_id := "20150101T000000";
       destination_directory := "host:/path";
       tablespace := Some ["b:/y"];
       target_tli := None; target_time := None; target_xid := None;
       target_name := None; exclusive := false; remote_ssh_command := None;
       retry_times := None; retry_sleep := None |}
  = ([EError (invalid_name_msg "b" ["a"])], Exited).
Proof.
  apply (recover_invalid_tablespace_name sample.cfg sample.catalogue
           sample.keys _ {| config := sample.main |} sample.done_backup
           {[ "b" := "/y" ]} [] [] "b"); try reflexivity.
  - constructor.
  - intros Hin%list_elem_of_singleton. discriminate.
Defined.

(** X15: when there is no global conflict and the requested name has no
    configuration, [recover] reports "Unknown server '<name>'" as its
    only output and exits; the backup catalogue plays no part. *)
Theorem recover_unknown_server
    (cfg : barman_config.Config) (B : Backend)
    (dict_keys : gmap string string → list string) (args : RecoverArgs) :
  barman_config.servers_msg_list cfg = [] →
  barman_config.get_server cfg (server_name args) = None →
  recover cfg B dict_keys args
    = ([EError ("Unknown server '" +:+ server_name args +:+ "'")], Exited).
Proof.
  intros Hgl Hconf.
  apply (recover_no_server cfg B dict_keys args []).
  by rewrite get_server_dangerous_run, Hgl, Hconf.
Qed.

Lemma recover_unknown_server_witness :
  recover sample.cfg sample.catalogue sample.keys
    {| server_name := "nosuch"; backup_id := "latest";
       destination_directory := "/srv/restore"; tablespace := None;
       target_tli := None; target_time := None; target_xid := None;
       target_name := None; exclusive := false; remote_ssh_command := None;
       retry_times := None; retry_sleep := None |}
  = ([EError "Unknown server 'nosuch'"], Exited).
Proof.
  apply (recover_unknown_server sample.cfg sample.catalogue sample.keys);
    reflexivity.
Defined.

(** ** Loops and sorted keys *)

Lemma for_each_done {A} (body : A → cmd unit) (l : list A) :
  Forall (λ x, result (body x) = Done tt) l →
  for_each body l = (l ≫= (λ x, trace (body x)), Done tt).
Proof.
  induction 1 as [|x l Hx _ IH]; [done|].
  cbn [for_each]. destruct (body x) as [tr r] eqn:Hb.
  unfold result in Hx. simpl in Hx. subst r.
  rewrite bind_done, IH. unfold trace. simpl. by rewrite Hb.
Qed.

Lemma for_each_stop {A} (body : A → cmd unit) (l1 l2 : list A) (x : A) :
  Forall (λ y, result (body y) = Done tt) l1 →
  result (body x) ≠ Done tt →
  for_each body (l1 ++ x :: l2)
  = ((l1 ≫= (λ y, trace (body y))) ++ trace (body x), result (body x)).
Proof.
  intros Hl1 Hx. induction Hl1 as [|y l1 Hy _ IH]; simpl.
  - destruct (body x) as [tr [[]| |e]]; try done.
  - destruct (body y) as [tr r] eqn:Hb.
    unfold result in Hy. simpl in Hy. subst r.
    rewrite bind_done, IH. unfold trace. simpl. by rewrite app_assoc.
Qed.

(** A loop either runs every body to its end, or stops at the first body
    that does not return. *)
Lemma for_each_cases {A} (body : A → cmd unit) (l : list A) :
  Forall (λ x, result (body x) = Done tt) l
  ∨ ∃ l1 x l2, l = l1 ++ x :: l2 ∧
               Forall (λ y, result (body y) = Done tt) l1 ∧
               result (body x) ≠ Done tt.
Proof.
  induction l as [|x l IH]; [by left|].
  destruct (result (body x)) as [[]| |e] eqn:Hx.
  - destruct IH as [IH|(l1 & y & l2 & -> & Hl1 & Hy)].
    + left. by constructor.
    + right. exists (x :: l1), y, l2. split; [done|]. split; [|done].
      by constructor.
  - right. exists [], x, l. split; [done|]. split; [constructor|].
    by rewrite Hx.
  - right. exists [], x, l. split; [done|]. split; [constructor|].
    by rewrite Hx.
Qed.

Lemma sorted_keys_perm {V} (d : gmap string V) :
  sorted_keys d ≡ₚ elements (dom d).
Proof. apply merge_sort_Permutation. Qed.

Lemma elem_of_sorted_keys {V} (d : gmap string V) (k : string) :
  k ∈ sorted_keys d ↔ is_Some (d !! k).
Proof. by rewrite sorted_keys_perm, elem_of_elements, elem_of_dom. Qed.

#[local] Instance str_le_total : Total str_le.
Proof.
  intros a b. unfold str_le.
  destruct (String.leb_total a b) as [->| ->]; [by left|by right].
Qed.

Lemma ascii_compare_trans (a b c : ascii) :
  Ascii.compare a b ≠ Gt → Ascii.compare b c ≠ Gt →
  Ascii.compare a c ≠ Gt
  ∧ (Ascii.compare a c = Eq →
     Ascii.compare a b = Eq ∧ Ascii.compare b c = Eq).
Proof.
  unfold Ascii.compare.
  destruct (N.compare_spec (N_of_ascii a) (N_of_ascii b));
    destruct (N.compare_spec (N_of_ascii b) (N_of_ascii c));
    destruct (N.compare_spec (N_of_ascii a) (N_of_ascii c));
    intros; split; try done; lia.
Qed.

Lemma string_compare_trans (x y z : string) :
  String.compare x y ≠ Gt → String.compare y z ≠ Gt →
  String.compare x z ≠ Gt.
Proof.
  revert y z. induction x as [|a x IH]; intros [|b y] [|c z]; simpl;
    try done.
  intros Hab Hbc.
  destruct (Ascii.compare a b) eqn:Eab; [| |done];
    destruct (Ascii.compare b c) eqn:Ebc; try done;
    destruct (ascii_compare_trans a b c) as [Hac Heq];
    rewrite ?Eab, ?Ebc; try done;
    destruct (Ascii.compare a c) eqn:Eac; try done.
  - by apply (IH y z).
  - destruct Heq; [done|]. congruence.
  - destruct Heq; [done|]. congruence.
  - destruct Heq; [done|]. congruence.
Qed.

#[local] Instance str_le_trans : Transitive str_le.
Proof.
  intros x y z. unfold str_le, String.leb.
  pose proof (string_compare_trans x y z) as H.
  destruct (String.compare x y), (String.compare y z),
    (String.compare x z); simpl; try done; intros _ _; by apply H.
Qed.

Lemma sorted_keys_sorted {V} (d : gmap string V) :
  StronglySorted str_le (sorted_keys d).
Proof. apply StronglySorted_merge_sort; apply _. Qed.

(** ** The maintenance sweep *)

Lemma for_each_trace_elem {A} (body : A → cmd unit) (l : list A) (e : event) :
  e ∈ trace (for_each body l) → ∃ x, x ∈ l ∧ e ∈ trace (body x).
Proof.
  induction l as [|x l IH]; cbn [for_each].
  - by intros ?%elem_of_nil.
  - destruct (body x) as [tr [[]| |ex]] eqn:Hb.
    + rewrite bind_done. unfold trace at 1. cbn [fst].
      intros [Hin|Hin]%elem_of_app.
      * exists x. split; [apply elem_of_cons; by left|]. by rewrite Hb.
      * destruct (IH Hin) as (y & Hy & He).
        exists y. split; [apply elem_of_cons; by right|done].
    + intros Hin. exists x. split; [apply elem_of_cons; by left|].
      by rewrite Hb.
    + intros Hin. exists x. split; [apply elem_of_cons; by left|].
      by rewrite Hb.
Qed.

Lemma server_error_output_blocking_run (s : Server) :
  server_error_output s true true =
    if disabled (config s) then (EError <$> msg_list (config s), Exited)
    else if active (config s) then ([], Done tt)
    else ([EError ("Not active server: " +:+ name (config s))], Exited).
Proof.
  unfold server_error_output. destruct (disabled (config s)).
  - rewrite for_each_error. by run_cmd.
  - destruct (active (config s)); by run_cmd.
Qed.

Lemma cron_step_run (servers : gmap string (option Server))
    (n : string) (s : Server) :
  servers !! n = Some (Some s) →
  cron_step servers n =
    if disabled (config s) then (EError <$> msg_list (config s), Exited)
    else if active (config s) then ([ECron s], Done tt)
    else ([EError ("Not active server: " +:+ name (config s))], Exited).
Proof.
  intros Hn. unfold cron_step. rewrite Hn, server_error_output_blocking_run.
  destruct (disabled (config s)); [done|].
  destruct (active (config s)); done.
Qed.

Lemma kept_inactive_only (conf : ServerConfig) :
  kept true false conf = active conf.
Proof. unfold kept. by destruct (active conf). Qed.

(** The sweep once the lock is held and there is no global conflict. *)
Lemma cron_acquired (cfg : barman_config.Config) :
  barman_config.servers_msg_list cfg = [] →
  ∃ m,
    (∀ conf, conf ∈ barman_config.servers cfg → active conf = true →
             is_Some (m !! name conf)) ∧
    (∀ n v, m !! n = Some v →
            ∃ conf, conf ∈ barman_config.servers cfg ∧ name conf = n ∧
                    active conf = true ∧ v = Some {| config := conf |}) ∧
    cron cfg LockAcquired
    = ((skip_info true
          <$> filter (λ conf, kept true false conf = false)
                (barman_config.servers cfg))
       ++ trace (for_each (cron_step m) (sorted_keys m)),
       Exited).
Proof.
  intros Hgl.
  destruct (get_server_list_all cfg None true false true false eq_refl
              (or_introl Hgl)) as (pre & m & Hrun & Hkept & Hval).
  pose proof (get_server_list_all_run cfg None true false true false
                eq_refl (or_introl Hgl)) as Htr.
  rewrite Hrun, all_fold_trace in Htr. injection Htr as Htr _.
  unfold conflict_errors in Htr. rewrite Hgl in Htr. cbn [fmap list_fmap app] in Htr.
  exists m. split; [|split].
  - intros conf Hin Hact. apply Hkept; [done|].
    by rewrite kept_inactive_only.
  - intros n v Hv. destruct (Hval n v Hv) as (conf & ? & ? & Hk & ?).
    exists conf. by rewrite kept_inactive_only in Hk.
  - unfold cron. rewrite Hrun. subst pre.
    rewrite bind_done. cbn [fst snd app].
    change (λ server : string,
              match m !! server with
              | Some (Some s) => server_error_output s true true ;; emit (ECron s)
              | Some None => raise AttributeError
              | None => raise KeyError
              end) with (cron_step m).
    destruct (for_each (cron_step m) (sorted_keys m)) as [tr r] eqn:Hloop.
    assert (r = Done tt ∨ r = Exited) as Hr.
    { destruct (for_each_cases (cron_step m) (sorted_keys m))
        as [Hall|(l1 & x & l2 & Hl & Hl1 & Hx)].
      - rewrite (for_each_done _ _ Hall) in Hloop. left. congruence.
      - rewrite Hl, (for_each_stop _ _ _ _ Hl1 Hx) in Hloop.
        injection Hloop as _ Hres. subst r.
        assert (x ∈ sorted_keys m) as Hin
          by (rewrite Hl; apply elem_of_app; right; apply elem_of_cons;
              by left).
        apply elem_of_sorted_keys in Hin as [v Hv].
        destruct (Hval x v Hv) as (conf & _ & _ & _ & ->).
        rewrite (cron_step_run m x _ Hv).
        unfold result. simpl.
        destruct (disabled conf), (active conf); simpl; auto. }
    unfold trace. cbn [fst].
    destruct Hr as [-> | ->]; run_cmd; done.
Qed.

Lemma cron_conflict (cfg : barman_config.Config) :
  barman_config.servers_msg_list cfg ≠ [] →
  cron cfg LockAcquired
    = (EError <$> barman_config.servers_msg_list cfg, Exited).
Proof.
  intros Hgl. unfold cron, get_server_list.
  by rewrite (global_check_stop _ false _ Hgl).
Qed.

(** X16: [cron] always ends through [close_and_exit], whatever the lock
    gives and whatever the configuration is: it never returns and no
    lookup in the resolved mapping fails. *)
Theorem cron_always_exits (cfg : barman_config.Config) (lock : lock_outcome) :
  result (cron cfg lock) = Exited.
Proof.
  destruct lock as [| |e]; [|done|done].
  destruct (decide (barman_config.servers_msg_list cfg = [])) as [Hgl|Hgl].
  - by destruct (cron_acquired cfg Hgl) as (m & _ & _ & ->).
  - by rewrite cron_conflict.
Qed.

(** X17: a server's cron is only run under the lock, without global
    conflict, and for a configured server that is active and not
    disabled. *)
Theorem cron_only_usable
    (cfg : barman_config.Config) (lock : lock_outcome) (s : Server) :
  ECron s ∈ trace (cron cfg lock) →
  lock = LockAcquired
  ∧ barman_config.servers_msg_list cfg = []
  ∧ config s ∈ barman_config.servers cfg
  ∧ active (config s) = true
  ∧ disabled (config s) = false.
Proof.
  destruct lock as [| |e].
  2,3: intros Hin; apply list_elem_of_singleton in Hin; discriminate.
  destruct (decide (barman_config.servers_msg_list cfg = [])) as [Hgl|Hgl].
  2: { rewrite cron_conflict by done.
       intros (msg & ? & _)%list_elem_of_fmap. discriminate. }
  destruct (cron_acquired cfg Hgl) as (m & _ & Hval & ->).
  unfold trace at 1. cbn [fst].
  intros [Hin|Hin]%elem_of_app.
  { apply list_elem_of_fmap in Hin as (conf & ? & _). discriminate. }
  apply for_each_trace_elem in Hin as (n & Hn & Hin).
  apply elem_of_sorted_keys in Hn as [v Hv].
  destruct (Hval n v Hv) as (conf & Hconf & _ & Hact & ->).
  rewrite (cron_step_run m n _ Hv) in Hin. simpl in Hin.
  destruct (disabled conf) eqn:Hdis.
  { apply list_elem_of_fmap in Hin as (msg & ? & _). discriminate. }
  rewrite Hact in Hin. apply list_elem_of_singleton in Hin.
  injection Hin as ->. done.
Qed.

Lemma cron_only_usable_witness :
  trace (cron sample.cfg LockAcquired)
    = [EInfo "Skipping inactive server 'aux'";
       ECron {| config := sample.main |}]
  ∧ active sample.main = true.
Proof.
  split; [reflexivity|].
  apply (cron_only_usable sample.cfg LockAcquired {| config := sample.main |}).
  apply elem_of_cons. right. apply list_elem_of_singleton. reflexivity.
Defined.

Lemma StronglySorted_fmap_inv {A B} (R : relation B) (f : A → B)
    (l : list A) :
  StronglySorted R (f <$> l) → StronglySorted (λ a b, R (f a) (f b)) l.
Proof.
  induction l as [|x l IH]; [constructor|].
  rewrite fmap_cons. intros Hs. apply StronglySorted_inv in Hs as [Hl Hx].
  constructor; [by apply IH|].
  apply Forall_forall. intros y Hy.
  apply (proj1 (Forall_forall _ _) Hx). by apply list_elem_of_fmap_2.
Qed.

Lemma sorted_keys_NoDup {V} (d : gmap string V) : NoDup (sorted_keys d).
Proof. rewrite sorted_keys_perm. apply NoDup_elements. Qed.

(** The servers behind a list of keys whose loop bodies all run cron. *)
Lemma cron_keys_servers (cfg : barman_config.Config)
    (m : gmap string (option Server)) (ks : list string) :
  Forall (λ n, ∃ conf, conf ∈ barman_config.servers cfg ∧ name conf = n ∧
                       active conf = true ∧
                       cron_step m n
                       = ([ECron {| config := conf |}], Done tt)) ks →
  ∃ l, (ks ≫= (λ n, trace (cron_step m n)))
       = (λ conf, ECron {| config := conf |}) <$> l
       ∧ name <$> l = ks
       ∧ Forall (λ conf, conf ∈ barman_config.servers cfg ∧
                         active conf = true) l.
Proof.
  induction 1 as [|n ks (conf & Hin & Hname & Hact & Hstep) _
                    (l & Htr & Hnames & Hl)].
  - by exists [].
  - exists (conf :: l). rewrite bind_cons, Hstep, Htr, !fmap_cons.
    rewrite Hname, Hnames.
    split; [done|]. split; [done|]. by constructor.
Qed.

(** X18: when the lock is held, there is no global conflict, the
    configured names are distinct and no server is disabled, the sweep
    announces the inactive servers it skips and then runs cron once for
    every active server, in ascending order of the server names, before
    it exits. *)
Theorem cron_sweep_order (cfg : barman_config.Config) :
  barman_config.servers_msg_list cfg = [] →
  NoDup (name <$> barman_config.servers cfg) →
  Forall (λ conf, disabled conf = false) (barman_config.servers cfg) →
  ∃ l,
    l ≡ₚ filter (λ conf, active conf = true) (barman_config.servers cfg)
    ∧ StronglySorted (λ a b, str_le (name a) (name b)) l
    ∧ cron cfg LockAcquired
      = ((skip_info true
            <$> filter (λ conf, kept true false conf = false)
                  (barman_config.servers cfg))
         ++ ((λ conf, ECron {| config := conf |}) <$> l),
         Exited).
Proof.
  intros Hgl Hnodup Henabled.
  destruct (cron_acquired cfg Hgl) as (m & Hkept & Hval & Hrun).
  assert (Forall (λ n, ∃ conf, conf ∈ barman_config.servers cfg ∧
                               name conf = n ∧ active conf = true ∧
                               cron_step m n
                               = ([ECron {| config := conf |}], Done tt))
            (sorted_keys m)) as Hkeys.
  { apply Forall_forall. intros n [v Hv]%elem_of_sorted_keys.
    destruct (Hval n v Hv) as (conf & Hin & Hname & Hact & ->).
    exists conf. repeat split; try done.
    rewrite (cron_step_run m n _ Hv). simpl.
    rewrite Forall_forall in Henabled. by rewrite (Henabled conf Hin), Hact. }
  destruct (cron_keys_servers cfg m _ Hkeys) as (l & Htr & Hnames & Hl).
  exists l. split; [|split].
  - apply NoDup_Permutation.
    + apply (NoDup_fmap_1 name). rewrite Hnames. apply sorted_keys_NoDup.
    + apply NoDup_filter. by apply (NoDup_fmap_1 name).
    + intros conf. rewrite list_elem_of_filter. split.
      * intros Hin. rewrite Forall_forall in Hl.
        destruct (Hl conf Hin). done.
      * intros [Hact Hin].
        assert (name conf ∈ name <$> l) as Hn.
        { rewrite Hnames. apply elem_of_sorted_keys. by apply Hkept. }
        apply list_elem_of_fmap in Hn as (conf' & Hname & Hin').
        rewrite Forall_forall in Hl. destruct (Hl conf' Hin') as [Hs _].
        by rewrite (NoDup_fmap_inj name _ conf conf' Hnodup Hin Hs Hname).
  - apply StronglySorted_fmap_inv. rewrite Hnames. apply sorted_keys_sorted.
  - rewrite Hrun. f_equal. f_equal.
    rewrite for_each_done; [exact Htr|].
    eapply Forall_impl; [exact Hkeys|].
    intros n (conf & _ & _ & _ & ->). done.
Qed.


Lemma cron_sweep_order_witness :
  ∃ l,
    l ≡ₚ [fleet.pg2; fleet.pg1]
    ∧ cron fleet.cfg LockAcquired
      = ([EInfo "Skipping inactive server 'standby'"]
         ++ ((λ conf, ECron {| config := conf |}) <$> l), Exited)
    ∧ trace (cron fleet.cfg LockAcquired)
      = [EInfo "Skipping inactive server 'standby'";
         ECron {| config := fleet.pg1 |}; ECron {| config := fleet.pg2 |}].
Proof.
  destruct (cron_sweep_order fleet.cfg) as (l & Hperm & _ & Hrun).
  - reflexivity.
  - apply (bool_decide_unpack _). by vm_compute.
  - repeat constructor.
  - exists l. split; [exact Hperm|]. split; [exact Hrun|reflexivity].
Defined.

(** X19: a server that is active but disabled stops the sweep when its
    turn comes.  With distinct configured names and no global conflict,
    cron can only have been run for servers whose name sorts strictly
    before that of such a server. *)
Theorem cron_stops_at_disabled
    (cfg : barman_config.Config) (conf : ServerConfig) (s : Server) :
  barman_config.servers_msg_list cfg = [] →
  NoDup (name <$> barman_config.servers cfg) →
  conf ∈ barman_config.servers cfg →
  active conf = true →
  disabled conf = true →
  ECron s ∈ trace (cron cfg LockAcquired) →
  str_le (name (config s)) (name conf) ∧ name (config s) ≠ name conf.
Proof.
  intros Hgl Hnodup Hconf Hact Hdis.
  destruct (cron_acquired cfg Hgl) as (m & Hkept & Hval & ->).
  unfold trace at 1. cbn [fst].
  intros [Hin|Hin]%elem_of_app.
  { apply list_elem_of_fmap in Hin as (c & ? & _). discriminate. }
  assert (result (cron_step m (name conf)) = Exited) as Hstop.
  { destruct (Hkept conf Hconf Hact) as [v Hv].
    destruct (Hval _ v Hv) as (conf' & Hin' & Hname & _ & ->).
    rewrite (NoDup_fmap_inj name _ conf' conf Hnodup Hin' Hconf Hname) in Hv.
    rewrite (cron_step_run m _ _ Hv). simpl. by rewrite Hdis. }
  assert (name conf ∈ sorted_keys m) as Hkey
    by (apply elem_of_sorted_keys; by apply Hkept).
  destruct (for_each_cases (cron_step m) (sorted_keys m))
    as [Hall|(l1 & x & l2 & Hl & Hl1 & Hx)].
  { rewrite Forall_forall in Hall. rewrite (Hall _ Hkey) in Hstop.
    discriminate. }
  pose proof (sorted_keys_sorted m) as Hsorted.
  rewrite Hl in Hin, Hkey, Hsorted.
  rewrite (for_each_stop _ _ _ _ Hl1 Hx) in Hin.
  unfold trace at 1 in Hin. cbn [fst] in Hin.
  assert (ECron s ∉ trace (cron_step m x)) as Hnot.
  { assert (x ∈ sorted_keys m) as Hxin
      by (rewrite Hl; apply elem_of_app; right; apply elem_of_cons; by left).
    apply elem_of_sorted_keys in Hxin as [v Hv].
    destruct (Hval x v Hv) as (c & _ & _ & _ & ->).
    rewrite (cron_step_run m x _ Hv) in Hx |- *. simpl in *.
    destruct (disabled c).
    { intros (msg & ? & _)%list_elem_of_fmap. discriminate. }
    destruct (active c); [by destruct Hx|].
    intros Hs%list_elem_of_singleton. discriminate. }
  apply elem_of_app in Hin as [Hin|Hin]; [|done].
  apply list_elem_of_bind in Hin as (y & Hy & Hyin).
  pose proof (proj1 (Forall_forall _ _) Hl1) as Hdone.
  assert (name (config s) = y) as Hs.
  { assert (y ∈ sorted_keys m) as Hyk
      by (rewrite Hl; apply elem_of_app; by left).
    apply elem_of_sorted_keys in Hyk as [v Hv].
    destruct (Hval y v Hv) as (c & _ & Hname & _ & ->).
    rewrite (cron_step_run m y _ Hv) in Hy. simpl in Hy.
    destruct (disabled c).
    { apply list_elem_of_fmap in Hy as (? & ? & _). discriminate. }
    destruct (active c); apply list_elem_of_singleton in Hy;
      [|discriminate].
    injection Hy as ->. done. }
  rewrite Hs. split.
  - apply (StronglySorted_app_1_elem_of _ _ _ _ _ Hsorted Hyin).
    apply elem_of_app in Hkey as [Hk|Hk]; [|done].
    rewrite (Hdone _ Hk) in Hstop. discriminate.
  - intros Heq. rewrite <- Heq, (Hdone _ Hyin) in Hstop. discriminate.
Qed.

Lemma cron_stops_at_disabled_witness :
  trace (cron fleet.with_broken LockAcquired)
    = [ECron {| config := fleet.pg1 |}; EError "duplicate path"]
  ∧ str_le "pg1" "pg1b".
Proof.
  split; [reflexivity|].
  apply (cron_stops_at_disabled fleet.with_broken fleet.broken
           {| config := fleet.pg1 |}).
  - reflexivity.
  - apply (bool_decide_unpack _). by vm_compute.
  - apply elem_of_cons. right. apply elem_of_cons. by left.
  - reflexivity.
  - reflexivity.
  - apply elem_of_cons. by left.
Defined.

(** ** The other commands: loops over the resolved servers *)

Lemma xbind_done {A B} (tr : list xevent) (a : A) (f : A → xcmd B) :
  (tr, Done a) ≫= f = (tr ++ (f a).1, (f a).2).
Proof. unfold mbind, xcmd_bind. by destruct (f a). Qed.

Lemma xbind_ret {A B} (a : A) (f : A → xcmd B) : (mret a ≫= f) = f a.
Proof. unfold mret, xcmd_ret. rewrite xbind_done. by destruct (f a). Qed.

Lemma xfor_each_done {A} (body : A → xcmd unit) (l : list A) :
  Forall (λ x, xresult (body x) = Done tt) l →
  xfor_each body l = (l ≫= (λ x, xtrace (body x)), Done tt).
Proof.
  induction 1 as [|x l Hx _ IH]; [done|].
  cbn [xfor_each]. destruct (body x) as [tr r] eqn:Hb.
  unfold xresult in Hx. simpl in Hx. subst r.
  rewrite xbind_done, IH, bind_cons. unfold xtrace. by rewrite Hb.
Qed.

Lemma xfor_each_trace_elem {A} (body : A → xcmd unit) (l : list A)
    (e : xevent) :
  e ∈ xtrace (xfor_each body l) → ∃ x, x ∈ l ∧ e ∈ xtrace (body x).
Proof.
  induction l as [|x l IH]; cbn [xfor_each].
  - by intros ?%elem_of_nil.
  - destruct (body x) as [tr [[]| |ex]] eqn:Hb.
    + rewrite xbind_done. unfold xtrace at 1. cbn [fst].
      intros [Hin|Hin]%elem_of_app.
      * exists x. split; [apply elem_of_cons; by left|]. by rewrite Hb.
      * destruct (IH Hin) as (y & Hy & He).
        exists y. split; [apply elem_of_cons; by right|done].
    + intros Hin. exists x. split; [apply elem_of_cons; by left|].
      by rewrite Hb.
    + intros Hin. exists x. split; [apply elem_of_cons; by left|].
      by rewrite Hb.
Qed.

Lemma xfor_each_no_raise {A} (body : A → xcmd unit) (l : list A) :
  Forall (λ x, xresult (body x) = Done tt ∨ xresult (body x) = Exited) l →
  xresult (xfor_each body l) = Done tt
  ∨ xresult (xfor_each body l) = Exited.
Proof.
  induction 1 as [|x l Hx _ IH]; [by left|].
  cbn [xfor_each]. destruct (body x) as [tr r]. unfold xresult in Hx.
  simpl in Hx. destruct Hx as [-> | ->]; [|by right].
  rewrite xbind_done. exact IH.
Qed.

(** The loop over the sorted keys of a mapping, when every body returns. *)
Lemma xfor_each_keys (body : string → xcmd unit)
    (m : gmap string (option Server)) :
  (∀ n, is_Some (m !! n) → xresult (body n) = Done tt) →
  xfor_each body (sorted_keys m)
  = (sorted_keys m ≫= (λ n, xtrace (body n)), Done tt).
Proof.
  intros Hdone. apply xfor_each_done, Forall_forall.
  intros n Hn%elem_of_sorted_keys. by apply Hdone.
Qed.

Lemma elem_of_keys_bind (f : string → list xevent)
    (m : gmap string (option Server)) (e : xevent) :
  e ∈ sorted_keys m ≫= f ↔ ∃ n, is_Some (m !! n) ∧ e ∈ f n.
Proof.
  rewrite list_elem_of_bind. split; intros (n & ? & ?); exists n.
  - by rewrite <- elem_of_sorted_keys.
  - by rewrite elem_of_sorted_keys.
Qed.

(** Resolution of an explicit list when there is no global conflict. *)
Lemma resolve_named (cfg : barman_config.Config) (first : string)
    (rest : list string) (skip_inactive skip_disabled : bool) :
  barman_config.servers_msg_list cfg = [] →
  first ≠ "all" →
  ∃ m,
    get_server_list cfg (Some (first :: rest)) skip_inactive skip_disabled
      true false = ([], Done m) ∧
    ∀ n, m !! n = if decide (n ∈ first :: rest)
                  then Some (Build_Server <$> barman_config.get_server cfg n)
                  else None.
Proof.
  intros Hgl Hfirst.
  rewrite (get_server_list_named_run cfg first rest skip_inactive
             skip_disabled true false Hfirst (or_introl Hgl)).
  destruct (named_fold_spec cfg (first :: rest) ∅) as (m & -> & Hm).
  exists m. unfold conflict_errors. rewrite Hgl. split; [done|].
  intros n. rewrite Hm. by rewrite lookup_empty.
Qed.

Lemma is_unknown_server_Some (s : Server) (n : string) :
  is_unknown_server (Some s) n = ([], Done false).
Proof. reflexivity. Qed.

Lemma lift_unknown_server_None (n : string) :
  lift (is_unknown_server None n)
  = ([XCore (EError ("Unknown server '" +:+ n +:+ "'"))], Done true).
Proof. reflexivity. Qed.

Lemma lift_error_output_nonblocking (s : Server) (check_active : bool) :
  xresult (lift (server_error_output s false check_active)) = Done tt
  ∧ ∀ e, e ∈ xtrace (lift (server_error_output s false check_active)) →
         ∃ msg, e = XCore (EWarning msg).
Proof.
  destruct (server_error_output_nonblocking s check_active) as [Hres Hw].
  split; [exact Hres|].
  intros e (e' & -> & He')%list_elem_of_fmap.
  destruct (Hw e' He') as [msg ->]. eauto.
Qed.

Lemma lift_silent_bind {A B} (a : A) (f : A → xcmd B) :
  (lift ([], Done a) ≫= f) = f a.
Proof. apply (xbind_ret a f). Qed.

Lemma lift_done_bind {A B} (tr : list event) (a : A) (f : A → xcmd B) :
  (lift (tr, Done a) ≫= f) = ((XCore <$> tr) ++ (f a).1, (f a).2).
Proof. apply (xbind_done (XCore <$> tr) a f). Qed.

(** Runs the binds of a command of the wider trace. *)
Ltac run_xcmd :=
  unfold lift, xemit, xpass, xraise, output.close_and_exit, output.error,
    emit, mret, xcmd_ret, cmd_ret, mbind, xcmd_bind, cmd_bind;
  simpl; rewrite ?app_nil_r.

Lemma status_step_run (m : gmap string (option Server)) (n : string)
    (v : option Server) :
  m !! n = Some v →
  status_step m n =
    match v with
    | None => ([XCore (EError ("Unknown server '" +:+ n +:+ "'"))], Done tt)
    | Some s =>
        ((XCore <$> trace (server_error_output s false true))
         ++ [XInit "status" n None; XServer op_status s], Done tt)
    end.
Proof.
  intros Hv. unfold status_step, getitem. rewrite Hv, xbind_ret.
  destruct v as [s|]; [|reflexivity].
  destruct (server_error_output_nonblocking s true) as [Hres _].
  destruct (server_error_output s false true) as [tr r].
  unfold result in Hres. simpl in Hres. subst r. by run_xcmd.
Qed.

(** X21: [status] on an explicit list, without global conflict, serves
    every requested name and only exits at its end: each configured name
    has its output initialised and [server.status] called, be the server
    disabled or inactive; each name without configuration gets the error
    "Unknown server '<name>'", which is the only kind of error emitted;
    and [server.status] is called for requested, configured servers
    only. *)
Theorem status_serves_every_name
    (cfg : barman_config.Config) (first : string) (rest : list string) :
  barman_config.servers_msg_list cfg = [] →
  first ≠ "all" →
  xresult (status cfg (first :: rest)) = Exited
  ∧ (∀ n conf, n ∈ first :: rest →
       barman_config.get_server cfg n = Some conf →
       XInit "status" n None ∈ xtrace (status cfg (first :: rest)) ∧
       XServer op_status {| config := conf |}
         ∈ xtrace (status cfg (first :: rest)))
  ∧ (∀ n, n ∈ first :: rest →
       barman_config.get_server cfg n = None →
       XCore (EError ("Unknown server '" +:+ n +:+ "'"))
         ∈ xtrace (status cfg (first :: rest)))
  ∧ (∀ msg, XCore (EError msg) ∈ xtrace (status cfg (first :: rest)) →
       ∃ n, n ∈ first :: rest ∧ barman_config.get_server cfg n = None ∧
            msg = "Unknown server '" +:+ n +:+ "'")
  ∧ (∀ s, XServer op_status s ∈ xtrace (status cfg (first :: rest)) →
       ∃ n, n ∈ first :: rest ∧
            barman_config.get_server cfg n = Some (config s)).
Proof.
  intros Hgl Hfirst.
  destruct (resolve_named cfg first rest false false Hgl Hfirst)
    as (m & Hrun & Hm).
  assert (status cfg (first :: rest)
          = (sorted_keys m ≫= (λ n, xtrace (status_step m n)), Exited))
    as ->.
  { unfold status. rewrite Hrun, lift_silent_bind, xfor_each_keys.
    - by run_xcmd.
    - intros n [v Hv]. rewrite (status_step_run m n v Hv). by destruct v. }
  unfold xtrace at 1 3 4 5 6, xresult. cbn [fst snd].
  split; [done|].
  assert (∀ n, n ∈ first :: rest →
               m !! n = Some (Build_Server <$> barman_config.get_server cfg n))
    as Hreq by (intros n Hn; by rewrite Hm, decide_True).
  assert (∀ n v, m !! n = Some v →
                 n ∈ first :: rest ∧
                 v = Build_Server <$> barman_config.get_server cfg n)
    as Hinv.
  { intros n v. rewrite Hm. case_decide; [|done]. by intros [= <-]. }
  split; [|split; [|split]].
  - intros n conf Hn Hconf. specialize (Hreq n Hn). rewrite Hconf in Hreq.
    split; apply elem_of_keys_bind; exists n; (split; [by eexists|]);
      rewrite (status_step_run m n _ Hreq); unfold xtrace; cbn [fst];
      apply elem_of_app; right.
    + apply elem_of_cons. by left.
    + apply elem_of_cons. right. apply elem_of_cons. by left.
  - intros n Hn Hconf. specialize (Hreq n Hn). rewrite Hconf in Hreq.
    apply elem_of_keys_bind. exists n. split; [by eexists|].
    rewrite (status_step_run m n _ Hreq). apply elem_of_cons. by left.
  - intros msg (n & [v Hv] & Hin)%elem_of_keys_bind.
    destruct (Hinv n v Hv) as [Hn ->].
    rewrite (status_step_run m n _ Hv) in Hin. unfold xtrace in Hin.
    destruct (barman_config.get_server cfg n) as [conf|] eqn:Hconf;
      cbn [fmap option_fmap option_map fst] in Hin.
    + exfalso. apply elem_of_app in Hin as [Hin|Hin].
      * apply list_elem_of_fmap in Hin as (e & [= <-] & He).
        destruct (server_error_output_nonblocking {| config := conf |} true)
          as [_ Hw]. destruct (Hw _ He) as [? ?]. discriminate.
      * apply elem_of_cons in Hin as [?|Hin]; [discriminate|].
        apply list_elem_of_singleton in Hin. discriminate.
    + apply list_elem_of_singleton in Hin. injection Hin as ->.
      by exists n.
  - intros s (n & [v Hv] & Hin)%elem_of_keys_bind.
    destruct (Hinv n v Hv) as [Hn ->].
    rewrite (status_step_run m n _ Hv) in Hin. unfold xtrace in Hin.
    destruct (barman_config.get_server cfg n) as [conf|] eqn:Hconf;
      cbn [fmap option_fmap option_map fst] in Hin.
    + apply elem_of_app in Hin as [Hin|Hin].
      * apply list_elem_of_fmap in Hin as (e & ? & _). discriminate.
      * apply elem_of_cons in Hin as [?|Hin]; [discriminate|].
        apply list_elem_of_singleton in Hin. injection Hin as ->.
        by exists n.
    + apply list_elem_of_singleton in Hin. discriminate.
Qed.

Lemma status_serves_every_name_witness :
  xtrace (status sample.cfg ["nosuch"; "main"; "aux"])
    = [XCore (EWarning "bad path"); XCore (EWarning "bad conninfo");
       XInit "status" "aux" None; XServer op_status {| config := sample.aux |};
       XInit "status" "main" None;
       XServer op_status {| config := sample.main |};
       XCore (EError "Unknown server 'nosuch'")]
  ∧ xresult (status sample.cfg ["nosuch"; "main"; "aux"]) = Exited.
Proof.
  split; [reflexivity|].
  apply (status_serves_every_name sample.cfg "nosuch" ["main"; "aux"]).
  - reflexivity.
  - discriminate.
Defined.

(** A command that resolves an explicit list and then loops over the
    sorted keys with a body that always returns. *)
Lemma named_loop (cfg : barman_config.Config) (first : string)
    (rest : list string) (skip_inactive skip_disabled : bool)
    (step : gmap string (option Server) → string → xcmd unit) :
  barman_config.servers_msg_list cfg = [] →
  first ≠ "all" →
  (∀ m n, is_Some (m !! n) → xresult (step m n) = Done tt) →
  ∃ m,
    (∀ n, n ∈ first :: rest →
          m !! n = Some (Build_Server <$> barman_config.get_server cfg n)) ∧
    (∀ n v, m !! n = Some v →
            n ∈ first :: rest ∧
            v = Build_Server <$> barman_config.get_server cfg n) ∧
    (lift (get_server_list cfg (Some (first :: rest)) skip_inactive
             skip_disabled true false)
     ≫= λ servers,
          xfor_each (step servers) (sorted_keys servers) ;;
          (lift output.close_and_exit : xcmd unit))
    = (sorted_keys m ≫= (λ n, xtrace (step m n)), Exited).
Proof.
  intros Hgl Hfirst Hstep.
  destruct (resolve_named cfg first rest skip_inactive skip_disabled
              Hgl Hfirst) as (m & Hrun & Hm).
  exists m. split; [|split].
  - intros n Hn. by rewrite Hm, decide_True.
  - intros n v. rewrite Hm. case_decide; [|done]. by intros [= <-].
  - rewrite Hrun, lift_silent_bind, xfor_each_keys by apply Hstep.
    by run_xcmd.
Qed.

Lemma xtrace_then_exit (m : xcmd unit) (e : xevent) :
  e ∈ xtrace (m ;; (lift output.close_and_exit : xcmd unit)) →
  e ∈ xtrace m.
Proof. destruct m as [tr [[]| |ex]]; run_xcmd; done. Qed.

Lemma rebuild_xlogdb_step_events (m : gmap string (option Server))
    (n : string) (s : Server) :
  XServer op_rebuild_xlogdb s ∈ xtrace (rebuild_xlogdb_step m n) →
  disabled (config s) = false ∧ active (config s) = true.
Proof.
  unfold rebuild_xlogdb_step, getitem.
  destruct (m !! n) as [[s'|]|].
  - rewrite xbind_ret, is_unknown_server_Some.
    rewrite lift_silent_bind, server_error_output_blocking_run.
    destruct (disabled (config s')) eqn:Hdis.
    { run_xcmd. intros (e & ? & _)%list_elem_of_fmap. discriminate. }
    destruct (active (config s')) eqn:Hact; run_xcmd;
      intros Hin%list_elem_of_singleton; [|discriminate].
    by injection Hin as ->.
  - rewrite xbind_ret. run_xcmd.
    intros Hin%list_elem_of_singleton. discriminate.
  - run_xcmd. by intros ?%elem_of_nil.
Qed.

(** X22: [rebuild_xlogdb] only ever rebuilds the WAL database of a server
    that is neither disabled nor inactive, whatever names are requested
    ('all' included) and whatever the configuration is. *)
Theorem rebuild_xlogdb_guarded
    (cfg : barman_config.Config) (server_name : list string) (s : Server) :
  XServer op_rebuild_xlogdb s ∈ xtrace (rebuild_xlogdb cfg server_name) →
  disabled (config s) = false ∧ active (config s) = true.
Proof.
  unfold rebuild_xlogdb.
  destruct (get_server_list cfg (Some server_name) false false true false)
    as [pre [m| |ex]].
  - rewrite lift_done_bind.
    unfold xtrace at 1. cbn [fst].
    intros [Hin|Hin]%elem_of_app.
    { apply list_elem_of_fmap in Hin as (e & ? & _). discriminate. }
    apply (xtrace_then_exit (xfor_each (rebuild_xlogdb_step m)
                               (sorted_keys m))) in Hin.
    apply xfor_each_trace_elem in Hin as (n & _ & Hin).
    by apply (rebuild_xlogdb_step_events m n).
  - intros (e & ? & _)%list_elem_of_fmap. discriminate.
  - intros (e & ? & _)%list_elem_of_fmap. discriminate.
Qed.

Lemma rebuild_xlogdb_guarded_witness :
  xtrace (rebuild_xlogdb sample.cfg ["nosuch"; "main"])
    = [XServer op_rebuild_xlogdb {| config := sample.main |};
       XCore (EError "Unknown server 'nosuch'")]
  ∧ xtrace (rebuild_xlogdb sample.cfg ["main"; "aux"])
    = [XCore (EError "bad path"); XCore (EError "bad conninfo")]
  ∧ active sample.main = true.
Proof.
  split; [reflexivity|]. split; [reflexivity|].
  apply (rebuild_xlogdb_guarded sample.cfg ["nosuch"; "main"]
           {| config := sample.main |}).
  apply elem_of_cons. by left.
Defined.

Lemma server_error_output_silent_run (s : Server) :
  server_error_output s false false =
    (if disabled (config s) then EWarning <$> msg_list (config s) else [],
     Done tt).
Proof.
  unfold server_error_output. destruct (disabled (config s)).
  - rewrite for_each_warning. by run_cmd.
  - by run_cmd.
Qed.

Lemma show_server_step_run (m : gmap string (option Server)) (n : string)
    (v : option Server) :
  m !! n = Some v →
  show_server_step m n =
    match v with
    | None => ([XCore (EError ("Unknown server '" +:+ n +:+ "'"))], Done tt)
    | Some s =>
        ((XCore <$> (if disabled (config s)
                     then EWarning <$> msg_list (config s) else []))
         ++ [XInit "show_server" n None; XServer op_show s], Done tt)
    end.
Proof.
  intros Hv. unfold show_server_step, getitem. rewrite Hv, xbind_ret.
  destruct v as [s|]; [|reflexivity].
  rewrite is_unknown_server_Some, lift_silent_bind.
  rewrite server_error_output_silent_run. by run_xcmd.
Qed.

(** X23: [show_server] on an explicit list, without global conflict,
    shows every configured name, and the only warnings it emits are the
    messages of the disabled servers among them: an inactive server is
    shown without any 'Not active server' warning. *)
Theorem show_server_warns_disabled_only
    (cfg : barman_config.Config) (first : string) (rest : list string) :
  barman_config.servers_msg_list cfg = [] →
  first ≠ "all" →
  (∀ n conf, n ∈ first :: rest →
     barman_config.get_server cfg n = Some conf →
     XServer op_show {| config := conf |}
       ∈ xtrace (show_server cfg (first :: rest)))
  ∧ (∀ msg, XCore (EWarning msg) ∈ xtrace (show_server cfg (first :: rest)) →
       ∃ n conf, n ∈ first :: rest ∧
                 barman_config.get_server cfg n = Some conf ∧
                 disabled conf = true ∧ msg ∈ msg_list conf).
Proof.
  intros Hgl Hfirst.
  destruct (named_loop cfg first rest false false show_server_step
              Hgl Hfirst) as (m & Hreq & Hinv & Hrun).
  { intros m n [v Hv]. rewrite (show_server_step_run m n v Hv).
    by destruct v. }
  unfold show_server. rewrite Hrun. unfold xtrace at 1 3. cbn [fst].
  split.
  - intros n conf Hn Hconf. specialize (Hreq n Hn). rewrite Hconf in Hreq.
    apply elem_of_keys_bind. exists n. split; [by eexists|].
    rewrite (show_server_step_run m n _ Hreq). unfold xtrace. cbn [fst].
    apply elem_of_app. right. apply elem_of_cons. right.
    apply elem_of_cons. by left.
  - intros msg (n & [v Hv] & Hin)%elem_of_keys_bind.
    destruct (Hinv n v Hv) as [Hn ->].
    rewrite (show_server_step_run m n _ Hv) in Hin. unfold xtrace in Hin.
    destruct (barman_config.get_server cfg n) as [conf|] eqn:Hconf;
      cbn [fmap option_fmap option_map fst config] in Hin.
    + apply elem_of_app in Hin as [Hin|Hin].
      * apply list_elem_of_fmap in Hin as (e & [= <-] & He).
        destruct (disabled conf) eqn:Hdis; [|by apply elem_of_nil in He].
        apply list_elem_of_fmap in He as (msg' & [= <-] & Hmsg).
        by exists n, conf.
      * apply elem_of_cons in Hin as [?|Hin]; [discriminate|].
        apply list_elem_of_singleton in Hin. discriminate.
    + apply list_elem_of_singleton in Hin. discriminate.
Qed.

Lemma show_server_warns_disabled_only_witness :
  xtrace (show_server fleet.cfg ["standby"])
    = [XInit "show_server" "standby" None;
       XServer op_show {| config := fleet.standby |}]
  ∧ XServer op_show {| config := fleet.standby |}
      ∈ xtrace (show_server fleet.cfg ["standby"]).
Proof.
  split; [reflexivity|].
  destruct (show_server_warns_disabled_only fleet.cfg "standby" [])
    as [Hshown _].
  - reflexivity.
  - discriminate.
  - apply (Hshown "standby" fleet.standby); [|reflexivity].
    apply elem_of_cons. by left.
Defined.

Lemma list_backup_step_run (minimal : bool)
    (m : gmap string (option Server)) (n : string) (v : option Server) :
  m !! n = Some v →
  list_backup_step minimal m n =
    match v with
    | None =>
        ([XInit "list_backup" n (Some minimal);
          XCore (EError ("Unknown server '" +:+ n +:+ "'"))], Done tt)
    | Some s =>
        (XInit "list_backup" n (Some minimal)
         :: (XCore <$> trace (server_error_output s false true))
         ++ [XServer op_list_backups s], Done tt)
    end.
Proof.
  intros Hv. unfold list_backup_step, getitem. rewrite Hv, xbind_ret.
  destruct v as [s|]; [|reflexivity].
  rewrite is_unknown_server_Some.
  destruct (server_error_output_nonblocking s true) as [Hres _].
  destruct (server_error_output s false true) as [tr r].
  unfold result in Hres. simpl in Hres. subst r. by run_xcmd.
Qed.

(** X25: [list_backup] on an explicit list, without global conflict,
    initialises the output for every requested name, with the [minimal]
    flag, also for a name without configuration; it lists the backups of
    every configured name and of requested, configured servers only. *)
Theorem list_backup_inits_every_name
    (cfg : barman_config.Config) (first : string) (rest : list string)
    (minimal : bool) :
  barman_config.servers_msg_list cfg = [] →
  first ≠ "all" →
  (∀ n, n ∈ first :: rest →
     XInit "list_backup" n (Some minimal)
       ∈ xtrace (list_backup cfg (first :: rest) minimal))
  ∧ (∀ n conf, n ∈ first :: rest →
       barman_config.get_server cfg n = Some conf →
       XServer op_list_backups {| config := conf |}
         ∈ xtrace (list_backup cfg (first :: rest) minimal))
  ∧ (∀ s, XServer op_list_backups s
            ∈ xtrace (list_backup cfg (first :: rest) minimal) →
       ∃ n, n ∈ first :: rest ∧
            barman_config.get_server cfg n = Some (config s)).
Proof.
  intros Hgl Hfirst.
  destruct (named_loop cfg first rest false false (list_backup_step minimal)
              Hgl Hfirst) as (m & Hreq & Hinv & Hrun).
  { intros m n [v Hv]. rewrite (list_backup_step_run minimal m n v Hv).
    by destruct v. }
  unfold list_backup. rewrite Hrun. unfold xtrace at 1 3 4. cbn [fst].
  split; [|split].
  - intros n Hn. specialize (Hreq n Hn).
    apply elem_of_keys_bind. exists n. split; [by eexists|].
    rewrite (list_backup_step_run minimal m n _ Hreq).
    destruct (barman_config.get_server cfg n); apply elem_of_cons; by left.
  - intros n conf Hn Hconf. specialize (Hreq n Hn). rewrite Hconf in Hreq.
    apply elem_of_keys_bind. exists n. split; [by eexists|].
    rewrite (list_backup_step_run minimal m n _ Hreq). unfold xtrace.
    cbn [fst]. apply elem_of_cons. right. apply elem_of_app. right.
    apply elem_of_cons. by left.
  - intros s (n & [v Hv] & Hin)%elem_of_keys_bind.
    destruct (Hinv n v Hv) as [Hn ->].
    rewrite (list_backup_step_run minimal m n _ Hv) in Hin.
    unfold xtrace in Hin.
    destruct (barman_config.get_server cfg n) as [conf|] eqn:Hconf;
      cbn [fmap option_fmap option_map fst] in Hin.
    + apply elem_of_cons in Hin as [?|Hin]; [discriminate|].
      apply elem_of_app in Hin as [Hin|Hin].
      * apply list_elem_of_fmap in Hin as (e & ? & _). discriminate.
      * apply list_elem_of_singleton in Hin. injection Hin as ->.
        by exists n.
    + apply elem_of_cons in Hin as [?|Hin]; [discriminate|].
      apply list_elem_of_singleton in Hin. discriminate.
Qed.

Lemma list_backup_inits_every_name_witness :
  xtrace (list_backup sample.cfg ["nosuch"; "main"] true)
    = [XInit "list_backup" "main" (Some true);
       XServer op_list_backups {| config := sample.main |};
       XInit "list_backup" "nosuch" (Some true);
       XCore (EError "Unknown server 'nosuch'")]
  ∧ XInit "list_backup" "nosuch" (Some true)
      ∈ xtrace (list_backup sample.cfg ["nosuch"; "main"] true).
Proof.
  split; [reflexivity|].
  destruct (list_backup_inits_every_name sample.cfg "nosuch" ["main"] true)
    as [Hinit _].
  - reflexivity.
  - discriminate.
  - apply Hinit. apply elem_of_cons. by left.
Defined.

Lemma check_step_run (m : gmap string (option Server)) (n : string)
    (v : option Server) :
  m !! n = Some v →
  check_step m n =
    match v with
    | None => ([XCore (EError ("Unknown server '" +:+ n +:+ "'"))], Done tt)
    | Some s =>
        ([XInit "check"
            (if active (config s) then n else n +:+ " (not active)") None;
          XServer op_check s], Done tt)
    end.
Proof.
  intros Hv. unfold check_step, getitem. rewrite Hv, xbind_ret.
  destruct v as [s|]; [|reflexivity].
  rewrite is_unknown_server_Some, lift_silent_bind.
  by destruct (active (config s)).
Qed.

(** X24: [check] on an explicit list, without global conflict, checks
    every configured name, disabled or inactive servers included, and
    labels the output of an inactive server '<name> (not active)'.  It
    emits no message about a configured server: the only messages are the
    "Unknown server" errors of the names without configuration.  The
    Nagios writer is installed exactly when [--nagios] is given. *)
Theorem check_every_configured
    (cfg : barman_config.Config) (first : string) (rest : list string)
    (nagios : bool) :
  barman_config.servers_msg_list cfg = [] →
  first ≠ "all" →
  (∀ n conf, n ∈ first :: rest →
     barman_config.get_server cfg n = Some conf →
     XInit "check" (if active conf then n else n +:+ " (not active)") None
       ∈ xtrace (check cfg (first :: rest) nagios) ∧
     XServer op_check {| config := conf |}
       ∈ xtrace (check cfg (first :: rest) nagios))
  ∧ (∀ e, XCore e ∈ xtrace (check cfg (first :: rest) nagios) →
       ∃ n, n ∈ first :: rest ∧ barman_config.get_server cfg n = None ∧
            e = EError ("Unknown server '" +:+ n +:+ "'"))
  ∧ (XNagiosWriter ∈ xtrace (check cfg (first :: rest) nagios)
     ↔ nagios = true).
Proof.
  intros Hgl Hfirst.
  destruct (named_loop cfg first rest true false check_step Hgl Hfirst)
    as (m & Hreq & Hinv & Hrun).
  { intros m n [v Hv]. rewrite (check_step_run m n v Hv). by destruct v. }
  assert (check cfg (first :: rest) nagios
          = ((if nagios then [XNagiosWriter] else [])
             ++ (sorted_keys m ≫= (λ n, xtrace (check_step m n))), Exited))
    as ->.
  { unfold check. rewrite Hrun. by destruct nagios. }
  unfold xtrace at 1 2 4 5. cbn [fst].
  assert (∀ e, e ∈ sorted_keys m ≫= (λ n, xtrace (check_step m n)) →
               e ≠ XNagiosWriter) as Hloop.
  { intros e (n & [v Hv] & Hin)%elem_of_keys_bind ->.
    rewrite (check_step_run m n v Hv) in Hin. unfold xtrace in Hin.
    destruct v; cbn [fst] in Hin.
    - apply elem_of_cons in Hin as [?|Hin]; [discriminate|].
      apply list_elem_of_singleton in Hin. discriminate.
    - apply list_elem_of_singleton in Hin. discriminate. }
  split; [|split].
  - intros n conf Hn Hconf. specialize (Hreq n Hn). rewrite Hconf in Hreq.
    split; apply elem_of_app; right; apply elem_of_keys_bind; exists n;
      (split; [by eexists|]); rewrite (check_step_run m n _ Hreq);
      unfold xtrace; cbn [fst config].
    + apply elem_of_cons. by left.
    + apply elem_of_cons. right. apply elem_of_cons. by left.
  - intros e [Hin|Hin]%elem_of_app.
    { destruct nagios; [|by apply elem_of_nil in Hin].
      apply list_elem_of_singleton in Hin. discriminate. }
    apply elem_of_keys_bind in Hin as (n & [v Hv] & Hin).
    destruct (Hinv n v Hv) as [Hn ->].
    rewrite (check_step_run m n _ Hv) in Hin. unfold xtrace in Hin.
    destruct (barman_config.get_server cfg n) as [conf|] eqn:Hconf;
      cbn [fmap option_fmap option_map fst] in Hin.
    + apply elem_of_cons in Hin as [?|Hin]; [discriminate|].
      apply list_elem_of_singleton in Hin. discriminate.
    + apply list_elem_of_singleton in Hin. injection Hin as ->.
      by exists n.
  - split.
    + intros [Hin|Hin]%elem_of_app.
      * destruct nagios; [done|by apply elem_of_nil in Hin].
      * by destruct (Hloop _ Hin).
    + intros ->. apply elem_of_app. left. apply elem_of_cons. by left.
Qed.

Lemma check_every_configured_witness :
  xtrace (check sample.cfg ["aux"; "main"] true)
    = [XNagiosWriter;
       XInit "check" "aux (not active)" None;
       XServer op_check {| config := sample.aux |};
       XInit "check" "main" None;
       XServer op_check {| config := sample.main |}]
  ∧ XServer op_check {| config := sample.aux |}
      ∈ xtrace (check sample.cfg ["aux"; "main"] true).
Proof.
  split; [reflexivity|].
  destruct (check_every_configured sample.cfg "aux" ["main"] true)
    as [Hchecked _].
  - reflexivity.
  - discriminate.
  - apply (Hchecked "aux" sample.aux); [|reflexivity].
    apply elem_of_cons. by left.
Defined.

Lemma filter_none {A} (P : A → Prop) `{∀ x, Decision (P x)} (l : list A) :
  (∀ x, ¬ P x) → filter P l = [].
Proof.
  intros HP. induction l as [|x l IH]; [done|].
  by rewrite filter_cons_False.
Qed.

(** X26: [diagnose] never stops on global conflicts and reports none of
    them itself: it emits nothing but one call to [exec_diagnose], then
    exits.  The call receives every configured server, inactive and
    disabled ones included, and the list of global conflicts, or an empty
    list when no server is configured. *)
Theorem diagnose_runs_once (cfg : barman_config.Config) :
  ∃ m,
    diagnose cfg
    = ([XDiagnose m (if bool_decide (barman_config.servers cfg ≠ [])
                     then barman_config.servers_msg_list cfg else [])],
       Exited)
    ∧ (∀ conf, conf ∈ barman_config.servers cfg → is_Some (m !! name conf))
    ∧ (∀ n v, m !! n = Some v →
              ∃ conf, conf ∈ barman_config.servers cfg ∧ name conf = n ∧
                      v = Some {| config := conf |}).
Proof.
  destruct (get_server_list_all cfg None false false false true eq_refl
              (or_intror eq_refl)) as (pre & m & Hrun & Hkept & Hval).
  pose proof (get_server_list_all_run cfg None false false false true
                eq_refl (or_intror eq_refl)) as Htr.
  rewrite Hrun, all_fold_trace in Htr. injection Htr as Htr _.
  rewrite filter_none in Htr by done.
  unfold conflict_errors in Htr. cbn [fmap list_fmap app] in Htr. subst pre.
  exists m. split; [|split].
  - unfold diagnose. rewrite Hrun, lift_silent_bind.
    assert (bool_decide (m ≠ ∅)
            = bool_decide (barman_config.servers cfg ≠ [])) as ->.
    { apply bool_decide_ext. split.
      - intros Hm Hnil. apply Hm. apply map_empty. intros n.
        destruct (m !! n) as [v|] eqn:Hv; [|done].
        destruct (Hval n v Hv) as (conf & Hin & _). rewrite Hnil in Hin.
        by apply elem_of_nil in Hin.
      - intros Hs ->. destruct (barman_config.servers cfg) as [|conf l] eqn:Hl;
          [done|].
        destruct (Hkept conf) as [v Hv]; [apply elem_of_cons; by left|done|].
        by rewrite lookup_empty in Hv. }
    by run_xcmd.
  - intros conf Hin. by apply Hkept.
  - intros n v Hv. destruct (Hval n v Hv) as (conf & ? & ? & _ & ?).
    by exists conf.
Qed.

(** ** Commands on one backup *)

Lemma delete_run (cfg : barman_config.Config) (B : Backend)
    (server_name backup_id : string) (s : Server) :
  get_server cfg server_name true = ([], Done (Some s)) →
  delete cfg B server_name backup_id =
    match parse_backup_id B s backup_id with
    | Some b => ([XBackup op_delete_backup s b], Exited)
    | None =>
        ([XCore (EError (unknown_backup_msg backup_id server_name))], Exited)
    end.
Proof.
  intros Hs. unfold delete.
  rewrite Hs, lift_silent_bind, is_unknown_server_Some, lift_silent_bind.
  destruct (parse_backup_id B s backup_id); by run_xcmd.
Qed.

Lemma delete_stopped (cfg : barman_config.Config) (B : Backend)
    (server_name backup_id : string) (tr : list event)
    (r : outcome (option Server)) :
  get_server cfg server_name true = (tr, r) →
  r = Exited ∨ r = Done None →
  ∀ s b, XBackup op_delete_backup s b
           ∉ xtrace (delete cfg B server_name backup_id).
Proof.
  intros Hs Hr s b. unfold delete. rewrite Hs.
  destruct Hr as [-> | ->]; run_xcmd.
  - intros (e & ? & _)%list_elem_of_fmap. discriminate.
  - intros [Hin|Hin]%elem_of_app.
    + apply list_elem_of_fmap in Hin as (e & ? & _). discriminate.
    + apply list_elem_of_singleton in Hin. discriminate.
Qed.

(** X27: [delete] only deletes a backup that the identifier resolves to,
    on a configured server that is neither disabled nor inactive, and
    when there is no global conflict; the deletion is then all the
    command emits. *)
Theorem delete_guarded
    (cfg : barman_config.Config) (B : Backend)
    (server_name backup_id : string) (s : Server) (b : BackupInfo.t) :
  XBackup op_delete_backup s b
    ∈ xtrace (delete cfg B server_name backup_id) →
  xtrace (delete cfg B server_name backup_id)
    = [XBackup op_delete_backup s b]
  ∧ barman_config.servers_msg_list cfg = []
  ∧ barman_config.get_server cfg server_name = Some (config s)
  ∧ disabled (config s) = false
  ∧ active (config s) = true
  ∧ parse_backup_id B s backup_id = Some b.
Proof.
  pose proof (get_server_dangerous_run cfg server_name) as Hs.
  case_bool_decide as Hgl.
  { intros Hin. by destruct (delete_stopped cfg B server_name backup_id _ _
                                Hs (or_introl eq_refl) s b). }
  destruct (barman_config.get_server cfg server_name) as [conf|] eqn:Hconf.
  2: { intros Hin. by destruct (delete_stopped cfg B server_name backup_id
                                  _ _ Hs (or_intror eq_refl) s b). }
  destruct (disabled conf) eqn:Hdis.
  { intros Hin. by destruct (delete_stopped cfg B server_name backup_id _ _
                                Hs (or_introl eq_refl) s b). }
  destruct (active conf) eqn:Hact.
  2: { intros Hin. by destruct (delete_stopped cfg B server_name backup_id
                                  _ _ Hs (or_introl eq_refl) s b). }
  rewrite (delete_run cfg B server_name backup_id _ Hs).
  destruct (parse_backup_id B {| config := conf |} backup_id)
    as [b'|] eqn:Hb; unfold xtrace; cbn [fst];
    intros Hin%list_elem_of_singleton; [|discriminate].
  injection Hin as -> ->. done.
Qed.

Lemma delete_guarded_witness :
  xtrace (delete sample.cfg sample.catalogue "main" "latest")
    = [XBackup op_delete_backup {| config := sample.main |}
         sample.failed_backup].
Proof.
  apply (delete_guarded sample.cfg sample.catalogue "main" "latest"
           {| config := sample.main |} sample.failed_backup).
  apply elem_of_cons. by left.
Defined.

(** X28: [delete] does not look at the status of the backup, [recover]
    does.  For a usable server and an identifier resolving to a backup
    whose status is not DONE, [delete] deletes that backup, while
    [recover] with the same server and identifier reports it as unknown
    and exits. *)
Theorem delete_accepts_unfinished
    (cfg : barman_config.Config) (B : Backend)
    (dict_keys : gmap string string → list string) (args : RecoverArgs)
    (conf : ServerConfig) (b : BackupInfo.t) :
  barman_config.servers_msg_list cfg = [] →
  barman_config.get_server cfg (server_name args) = Some conf →
  disabled conf = false →
  active conf = true →
  parse_backup_id B {| config := conf |} (backup_id args) = Some b →
  BackupInfo.status b ≠ BackupInfo.DONE →
  delete cfg B (server_name args) (backup_id args)
    = ([XBackup op_delete_backup {| config := conf |} b], Exited)
  ∧ recover cfg B dict_keys args
    = ([EError (unknown_backup_msg (backup_id args) (server_name args))],
       Exited).
Proof.
  intros Hgl Hconf Hdis Hact Hb Hstatus.
  pose proof (get_server_usable cfg _ conf Hgl Hconf Hdis Hact) as Hs.
  split.
  - by rewrite (delete_run cfg B _ _ _ Hs), Hb.
  - apply (recover_unknown_backup cfg B dict_keys args [] _ Hs).
    intros b'. rewrite Hb. by intros [= <-].
Qed.

Lemma delete_accepts_unfinished_witness :
  delete sample.cfg sample.catalogue "main" "last"
    = ([XBackup op_delete_backup {| config := sample.main |}
          sample.failed_backup], Exited)
  ∧ recover sample.cfg sample.catalogue sample.keys
      (sample.args "last" "/srv/restore")
    = ([EError "Unknown backup 'last' for server 'main'"], Exited).
Proof.
  apply (delete_accepts_unfinished sample.cfg sample.catalogue sample.keys
           (sample.args "last" "/srv/restore") sample.main
           sample.failed_backup); try reflexivity.
  discriminate.
Defined.

(** X29: [show_backup] works on any configured server when there is no
    global conflict: a disabled or inactive server only adds its
    warnings.  After them the command either shows the backup the
    identifier resolves to, whatever its status, or reports
    "Unknown backup"; in both cases it exits at its end only. *)
Theorem show_backup_run
    (cfg : barman_config.Config) (B : Backend)
    (server_name backup_id : string) (conf : ServerConfig) :
  barman_config.servers_msg_list cfg = [] →
  barman_config.get_server cfg server_name = Some conf →
  show_backup cfg B server_name backup_id =
    ((XCore <$> trace (server_error_output {| config := conf |} false true))
     ++ [match parse_backup_id B {| config := conf |} backup_id with
         | Some b => XBackup op_show_backup {| config := conf |} b
         | None =>
             XCore (EError (unknown_backup_msg backup_id server_name))
         end],
     Exited)
  ∧ ∀ e, e ∈ trace (server_error_output {| config := conf |} false true) →
         ∃ msg, e = EWarning msg.
Proof.
  intros Hgl Hconf.
  destruct (server_error_output_nonblocking {| config := conf |} true)
    as [Hres Hw].
  split; [|exact Hw].
  unfold show_backup, get_server. rewrite Hgl, Hconf.
  rewrite bool_decide_eq_false_2 by (by intros ?).
  destruct (server_error_output {| config := conf |} false true)
    as [tr r].
  unfold result in Hres. simpl in Hres. subst r.
  run_xcmd.
  by destruct (parse_backup_id B {| config := conf |} backup_id).
Qed.

Lemma show_backup_run_witness :
  show_backup sample.cfg sample.catalogue "aux" "latest"
  = ([XCore (EWarning "bad path"); XCore (EWarning "bad conninfo");
      XBackup op_show_backup {| config := sample.aux |} sample.failed_backup],
     Exited).
Proof.
  apply (show_backup_run sample.cfg sample.catalogue "aux" "latest"
           sample.aux); reflexivity.
Defined.

(** ** Option values *)

(** X20: [check_positive] lets an absent option through and otherwise
    returns the integer the text stands for exactly when that integer is
    not negative, zero included; a text that is no integer or stands for
    a negative one raises the error that quotes the text.  It never
    returns a negative number. *)
Theorem check_positive_accepts_non_negative
    (int : string → option Z) (value : string) :
  check_positive int None = inr None
  ∧ check_positive int (Some value) =
      match int value with
      | Some n =>
          if bool_decide (0 ≤ n)%Z then inr (Some n)
          else inl ("'" +:+ value +:+ "' is not a valid positive integer")
      | None => inl ("'" +:+ value +:+ "' is not a valid positive integer")
      end
  ∧ (int value = Some 0%Z → check_positive int (Some value) = inr (Some 0%Z))
  ∧ (∀ n, check_positive int (Some value) = inr (Some n) → (0 ≤ n)%Z).
Proof.
  assert (check_positive int (Some value) =
      match int value with
      | Some n =>
          if bool_decide (0 ≤ n)%Z then inr (Some n)
          else inl ("'" +:+ value +:+ "' is not a valid positive integer")
      | None => inl ("'" +:+ value +:+ "' is not a valid positive integer")
      end) as Heq.
  { unfold check_positive. destruct (int value) as [n|]; [|done].
    destruct (Z.ltb_spec n 0).
    - by rewrite bool_decide_eq_false_2 by lia.
    - by rewrite bool_decide_eq_true_2 by lia. }
  split; [done|]. split; [exact Heq|]. split.
  - intros H0. by rewrite Heq, H0.
  - intros n. rewrite Heq. destruct (int value) as [k|]; [|done].
    case_bool_decide; [|done]. by intros [= <-].
Qed.
